(** * llvm-reduce: the function-removal delta pass and the driver

    A shallow embedding of
      - [RemoveFunctions::extractChunksFromModule] and
        [RemoveFunctions::getTargetCount] (deltas/RemoveFunctions.cpp),
      - [parseInputFile], [initializeTmpDirectory] and [main]
        (llvm-reduce.cpp),
    together with the bisection procedure that drives a pass, which is
    modelled from its specification.

    Modules live in a store and are addressed by handles, so that the
    difference between the caller's module and the clone that the pass
    patches is visible.  A [Function *] is modelled by the name of the
    function it points to (unique in a module's symbol table) and an
    [Instruction *] by the id of the instruction.  Functions without a
    name would share the empty name: the model fits modules whose
    function names are distinct, and the statements about which functions
    are kept assume distinct names.  An access outside a
    [std::vector] is undefined behaviour: the computation stops without a
    result.  The [int] counters of the source count the functions of one
    module, stay far below [INT_MAX], and are modelled in [Z].

    The definitions come first: the code, then the views of it that the
    statements use, the bisection procedure and the data of the examples.
    The theorems follow. *)

From stdpp Require Import base option list strings gmap.
From Stdlib Require Import ZArith Lia.

Local Open Scope Z_scope.

(** ** The IR *)

Inductive Value :=
| VFunction (name : string)      (* a Function used as an operand *)
| VInstruction (id : nat)        (* the result of an instruction *)
| VUndef                         (* UndefValue *)
| VOther (c : Z).                (* argument, constant, global variable *)

Inductive Instruction :=
| CallInst (id : nat) (callee : Value) (args : list Value)
| OtherInst (id : nat) (operands : list Value).

Abbreviation BasicBlock := (list Instruction).

Record Function := mkFunction { Name : string; Blocks : list BasicBlock }.

Abbreviation Module := (list Function).

Record Chunk := mkChunk { begin : Z; end_ : Z }.

#[global] Instance Value_eq_dec : EqDecision Value.
Proof. solve_decision. Defined.

#[global] Instance Instruction_eq_dec : EqDecision Instruction.
Proof. solve_decision. Defined.

#[global] Instance Function_eq_dec : EqDecision Function.
Proof. solve_decision. Defined.

(** [F.isDeclaration()]: a function without a body. *)
Definition isDeclaration (F : Function) : bool :=
  match Blocks F with [] => true | _ :: _ => false end.

Definition instId (I : Instruction) : nat :=
  match I with CallInst id _ _ => id | OtherInst id _ => id end.

(** [Call->getCalledFunction()]: the callee when it is a Function, null
    otherwise. *)
Definition getCalledFunction (callee : Value) : option string :=
  match callee with VFunction name => Some name | _ => None end.

(** *** Mutators of the IR *)

(** [Old.replaceAllUsesWith(UndefValue::get(..))] seen from one operand.
    The operand is replaced when it is [Old] itself.  A constant built
    over [Old] is rebuilt by the code with undef in the place of [Old];
    [VOther] is opaque and does not show this, so the statements about
    operands speak of functions, results of instructions and undef. *)
Definition replaceValue (old v : Value) : Value :=
  if decide (v = old) then VUndef else v.

Definition replaceInstruction (old : Value) (I : Instruction) : Instruction :=
  match I with
  | CallInst id callee args =>
      CallInst id (replaceValue old callee) (replaceValue old <$> args)
  | OtherInst id operands => OtherInst id (replaceValue old <$> operands)
  end.

Definition replaceBlock (old : Value) (BB : BasicBlock) : BasicBlock :=
  replaceInstruction old <$> BB.

Definition replaceFunction (old : Value) (F : Function) : Function :=
  {| Name := Name F; Blocks := replaceBlock old <$> Blocks F |}.

Definition replaceUses (old : Value) (m : Module) : Module :=
  replaceFunction old <$> m.

(** [F->eraseFromParent()] for the function named [name]: one function,
    the names of a module being distinct. *)
Definition removeFunction (name : string) (m : Module) : Module :=
  filter (fun F => Name F ≠ name) m.

(** [I->eraseFromParent()] for the instruction with id [id]. *)
Definition removeInstructionFrom (id : nat) (BB : BasicBlock) : BasicBlock :=
  filter (fun I => instId I ≠ id) BB.

Definition removeInstructionIn (id : nat) (F : Function) : Function :=
  {| Name := Name F; Blocks := removeInstructionFrom id <$> Blocks F |}.

Definition removeInstruction (id : nat) (m : Module) : Module :=
  removeInstructionIn id <$> m.

(** ** The store and the execution monad *)

Inductive OutToken :=
| OutStr (s : string)
| OutInt (z : Z).

Inductive Event :=
| EvCloneModule (src dst : nat)
| EvReplaceAllUsesWith (m : nat) (old : Value)
| EvEraseFunction (m : nat) (name : string)
| EvEraseInstruction (m : nat) (id : nat)
| EvOuts (t : OutToken).

Record Store := mkStore { Heap : list Module; Trace : list Event }.

(** A computation returns [None] when it runs into undefined behaviour (an
    access outside a vector, a dangling handle). *)
Definition Exec (A : Type) : Type := Store -> option A * Store.

Definition ret {A} (a : A) : Exec A := fun s => (Some a, s).

Definition bind {A B} (c : Exec A) (k : A -> Exec B) : Exec B :=
  fun s => match c s with
           | (Some a, s') => k a s'
           | (None, s') => (None, s')
           end.

Definition liftOption {A} (o : option A) : Exec A := fun s => (o, s).

Declare Scope exec_scope.
Delimit Scope exec_scope with exec.
Notation "x <- c ;; k" := (bind c (fun x => k))
  (at level 100, c at next level, k at level 200, right associativity)
  : exec_scope.
Local Open Scope exec_scope.

Definition getModule (m : nat) : Exec Module :=
  fun s => (Heap s !! m, s).

Definition setModule (m : nat) (x : Module) : Exec unit :=
  fun s => (Some tt, {| Heap := <[m := x]> (Heap s); Trace := Trace s |}).

Definition emit (e : Event) : Exec unit :=
  fun s => (Some tt, {| Heap := Heap s; Trace := Trace s ++ [e] |}).

(** [CloneModule]: a fresh module object with the same contents. *)
Definition CloneModule (Program : nat) : Exec nat :=
  x <- getModule Program ;;
  fun s => (Some (length (Heap s)),
            {| Heap := Heap s ++ [x];
               Trace := Trace s ++ [EvCloneModule Program (length (Heap s))] |}).

Definition replaceAllUsesWithUndef (m : nat) (old : Value) : Exec unit :=
  x <- getModule m ;;
  _ <- setModule m (replaceUses old x) ;;
  emit (EvReplaceAllUsesWith m old).

Definition eraseFunction (m : nat) (name : string) : Exec unit :=
  x <- getModule m ;;
  _ <- setModule m (removeFunction name x) ;;
  emit (EvEraseFunction m name).

Definition eraseInstruction (m : nat) (id : nat) : Exec unit :=
  x <- getModule m ;;
  _ <- setModule m (removeInstruction id x) ;;
  emit (EvEraseInstruction m id).

(** [outs() << t] *)
Definition outs (t : OutToken) : Exec unit := emit (EvOuts t).

Definition tab : string := String (Ascii.ascii_of_nat 9) EmptyString.
Definition newline : string := String (Ascii.ascii_of_nat 10) EmptyString.

(** Reading the object an iterator points at. *)
Definition functionAt (m i : nat) : Exec Function :=
  x <- getModule m ;; liftOption (x !! i).

Definition blockAt (m i j : nat) : Exec BasicBlock :=
  F <- functionAt m i ;; liftOption (Blocks F !! j).

Definition instructionAt (m i j k : nat) : Exec Instruction :=
  BB <- blockAt m i j ;; liftOption (BB !! k).

(** *** Loops *)

(** A loop over a local vector. *)
Fixpoint forEach {A S} (xs : list A) (body : A -> S -> Exec S) (acc : S)
  : Exec S :=
  match xs with
  | [] => ret acc
  | x :: xs' => acc' <- body x acc ;; forEach xs' body acc'
  end.

(** [for (auto &F : m)]: the bounds are read once, the element is read
    when the iterator reaches it. *)
Definition forEachFunction {S} (m : nat)
    (body : nat -> Function -> S -> Exec S) (acc : S) : Exec S :=
  x <- getModule m ;;
  forEach (seq 0 (length x))
    (fun i acc => F <- functionAt m i ;; body i F acc) acc.

(** [for (auto &BB : F)] for the function at position [i]. *)
Definition forEachBlock {S} (m i : nat)
    (body : nat -> BasicBlock -> S -> Exec S) (acc : S) : Exec S :=
  F <- functionAt m i ;;
  forEach (seq 0 (length (Blocks F)))
    (fun j acc => BB <- blockAt m i j ;; body j BB acc) acc.

(** [for (auto &I : BB)] for the block at position [i], [j]. *)
Definition forEachInstruction {S} (m i j : nat)
    (body : Instruction -> S -> Exec S) (acc : S) : Exec S :=
  BB <- blockAt m i j ;;
  forEach (seq 0 (length BB))
    (fun k acc => I <- instructionAt m i j k ;; body I acc) acc.

(** ** RemoveFunctions (deltas/RemoveFunctions.cpp) *)

(** [ChunksToKeep[I]]: outside the vector the behaviour is undefined. *)
Definition chunkAt (ChunksToKeep : list Chunk) (Ix : nat) : option Chunk :=
  ChunksToKeep !! Ix.

(** The body of the first loop: the state is [FuncsToKeep], the index [I]
    (here [Ix]) and [FunctionCount].  The three accesses [ChunksToKeep[I]]
    of the source use the same index and are one lookup here.  The body
    touches nothing but its local variables. *)
Definition keepStep (ChunksToKeep : list Chunk) (F : Function)
    (st : gset string * nat * Z) : option (gset string * nat * Z) :=
  let '(FuncsToKeep, Ix, FunctionCount) := st in
  if isDeclaration F then Some st
  else
    match chunkAt ChunksToKeep Ix with
    | None => None
    | Some c =>
        let FuncsToKeep' :=
          if (begin c <=? FunctionCount) && (FunctionCount <=? end_ c)
          then {[Name F]} ∪ FuncsToKeep else FuncsToKeep in
        let Ix' := if end_ c <=? FunctionCount then S Ix else Ix in
        Some (FuncsToKeep', Ix', FunctionCount + 1)
    end.

(** The body of the second loop.  [FuncsToKeep.count(&F)] tests the
    pointer; the names of a module being distinct, that is a test on the
    name. *)
Definition patchStep (Clone : nat) (FuncsToKeep : gset string) (F : Function)
    (FuncsToRemove : list string) : Exec (list string) :=
  if negb (isDeclaration F) && negb (bool_decide (Name F ∈ FuncsToKeep))
  then
    _ <- replaceAllUsesWithUndef Clone (VFunction (Name F)) ;;
    ret (FuncsToRemove ++ [Name F])
  else ret FuncsToRemove.

(** The body of the sweep over the instructions. *)
Definition sweepStep (Clone : nat) (I : Instruction)
    (InstToRemove : list nat) : Exec (list nat) :=
  match I with
  | CallInst id callee _ =>
      match getCalledFunction callee with
      | None =>
          _ <- replaceAllUsesWithUndef Clone (VInstruction id) ;;
          ret (InstToRemove ++ [id])
      | Some _ => ret InstToRemove
      end
  | OtherInst _ _ => ret InstToRemove
  end.

Definition extractChunksFromModule (ChunksToKeep : list Chunk)
    (Program : nat) : Exec nat :=
  Clone <- CloneModule Program ;;
  (* Get functions inside desired chunks *)
  st <- forEachFunction Clone
          (fun _ F st => liftOption (keepStep ChunksToKeep F st))
          (∅, 0%nat, 1) ;;
  let FuncsToKeep := st.1.1 in
  (* Delete out-of-chunk functions, and replace their calls with undef *)
  FuncsToRemove <-
    forEachFunction Clone (fun _ F acc => patchStep Clone FuncsToKeep F acc)
      [] ;;
  _ <- forEach FuncsToRemove (fun F _ => eraseFunction Clone F) tt ;;
  (* Delete instructions with undef calls *)
  InstToRemove <-
    forEachFunction Clone (fun i _ acc =>
      forEachBlock Clone i (fun j _ acc =>
        forEachInstruction Clone i j (fun I acc => sweepStep Clone I acc)
          acc) acc) [] ;;
  _ <- forEach InstToRemove (fun I _ => eraseInstruction Clone I) tt ;;
  ret Clone.

(** The body of the counting loop. *)
Definition countStep (F : Function) (FunctionCount : Z) : Exec Z :=
  if isDeclaration F then ret FunctionCount
  else
    let FunctionCount' := FunctionCount + 1 in
    _ <- outs (OutStr tab) ;;
    _ <- outs (OutInt FunctionCount') ;;
    _ <- outs (OutStr ": ") ;;
    _ <- outs (OutStr (Name F)) ;;
    _ <- outs (OutStr newline) ;;
    ret FunctionCount'.

Definition getTargetCount (Program : nat) : Exec Z :=
  _ <- outs (OutStr ("----------------------------" +:+ newline)) ;;
  _ <- outs (OutStr ("Chunk Index Reference:" +:+ newline)) ;;
  FunctionCount <- forEachFunction Program (fun _ F n => countStep F n) 0 ;;
  _ <- outs (OutStr ("----------------------------" +:+ newline)) ;;
  ret FunctionCount.

(** A store that holds [Program] alone, at handle 0. *)
Definition initial (Program : Module) : Store :=
  {| Heap := [Program]; Trace := [] |}.

(** [extractChunksFromModule] from the module passed to the module
    returned. *)
Definition extractChunks (ChunksToKeep : list Chunk) (Program : Module)
  : option Module :=
  match extractChunksFromModule ChunksToKeep 0%nat (initial Program) with
  | (Some Clone, s) => Heap s !! Clone
  | (None, _) => None
  end.

(** [getTargetCount] from the module passed to the number returned. *)
Definition targetCount (Program : Module) : option Z :=
  (getTargetCount 0%nat (initial Program)).1.

(** ** The driver (llvm-reduce.cpp) *)

(** The command line. *)
Record Options := {
  InputFilename : string;
  TestFilename : string;
  TestArguments : list string;
  OutputFilename : string;
  ReplaceInput : bool
}.

(** The collaborators of llvm-reduce.cpp whose code is not among the
    sources: the test runner and the delta passes (DeltaManager.h), the IR
    reader and verifier, and the file system.  [current_path] is [inl] with
    the message of the error code when it fails; [create_directory]
    returns the message of its error code, if any; [verifyModule] gives
    what the verifier writes to the stream it is handed, and whether the
    module is broken. *)
Record Collaborators := {
  TestRunner : Type;
  newTestRunner : string -> list string -> string -> string -> TestRunner;
  setProgram : option Module -> TestRunner -> TestRunner;
  getReducedFilepath : TestRunner -> string;
  runDeltaPasses : TestRunner -> TestRunner;
  parseIRFile : string -> option Module;
  verifyModule : Module -> list string * bool;
  current_path : (string + string)%type;
  create_directory : string -> option string;
  path_append : string -> string -> string;
  path_filename : string -> string
}.

(** What the process does, in order. *)
Inductive Action (E : Collaborators) :=
| ErrsDiagnostic (prog : string)
| Errs (s : string)
| Outs (s : string)
| CreateDirectory (path : string)
| RunDeltaPasses (Tester : TestRunner E)
| CopyFile (from to : string).

Arguments ErrsDiagnostic {E} prog.
Arguments Errs {E} s.
Arguments Outs {E} s.
Arguments CreateDirectory {E} path.
Arguments RunDeltaPasses {E} Tester.
Arguments CopyFile {E} from to.

(** Parses IR into a Module and verifies it. *)
Definition parseInputFile (E : Collaborators) (Filename : string)
  : list (Action E) * option Module :=
  match parseIRFile E Filename with
  | None => ([ErrsDiagnostic "llvm-reduce"], None)
  | Some Result =>
      (* the verifier writes to errs() *)
      let diagnostics := Errs <$> (verifyModule E Result).1 in
      if (verifyModule E Result).2
      then (diagnostics
              ++ [Errs ("Error: " +:+ Filename
                        +:+ " - input module is broken!" +:+ newline)], None)
      else (diagnostics, Some Result)
  end.

(** Gets the current working directory and tries to create a tmp
    directory; [inl] is [exit(1)]. *)
Definition initializeTmpDirectory (E : Collaborators)
  : list (Action E) * (Z + string) :=
  match current_path E with
  | inl EC =>
      ([Errs ("Error getting current directory: " +:+ EC +:+ "!"
              +:+ newline)], inl 1)
  | inr CWD =>
      let TmpDirectory := path_append E CWD "tmp" in
      match create_directory E TmpDirectory with
      | Some EC =>
          ([CreateDirectory TmpDirectory;
            Errs ("Error creating tmp directory: " +:+ EC +:+ "!"
                  +:+ newline)], inr TmpDirectory)
      | None => ([CreateDirectory TmpDirectory], inr TmpDirectory)
      end
  end.

(** [main]: the actions of the process and its exit code. *)
Definition main (E : Collaborators) (o : Options) : list (Action E) * Z :=
  let '(parsing, OriginalProgram) := parseInputFile E (InputFilename o) in
  (* Initialize test environment *)
  match initializeTmpDirectory E with
  | (tmp, inl code) => (parsing ++ tmp, code)
  | (tmp, inr TmpDirectory) =>
      let Tester :=
        setProgram E OriginalProgram
          (newTestRunner E (TestFilename o) (TestArguments o)
             (InputFilename o) TmpDirectory) in
      (* Try to reduce code *)
      let Tester' := runDeltaPasses E Tester in
      let ReducedFilename := path_filename E (getReducedFilepath E Tester') in
      if String.eqb ReducedFilename (InputFilename o) then
        (parsing ++ tmp
           ++ [RunDeltaPasses Tester;
               Outs (newline +:+ "Couldnt reduce input :/" +:+ newline)],
         0)
      else
        let OutputFilename' :=
          if ReplaceInput o then InputFilename o
          else if String.eqb (OutputFilename o) EmptyString
               then "reduced.ll"%string
               else (OutputFilename o +:+ ".ll")%string in
        (parsing ++ tmp
           ++ [RunDeltaPasses Tester;
               CopyFile (getReducedFilepath E Tester') OutputFilename';
               Outs (newline +:+ "Done reducing! Reduced IR to file: "
                     +:+ OutputFilename' +:+ newline)],
         0)
  end.

(** The runner the passes are started on. *)
Definition testerOf (E : Collaborators) (o : Options) (TmpDirectory : string)
  : TestRunner E :=
  setProgram E (parseInputFile E (InputFilename o)).2
    (newTestRunner E (TestFilename o) (TestArguments o) (InputFilename o)
       TmpDirectory).

(** The file the reduced module is copied to. *)
Definition outputOf (o : Options) : string :=
  if ReplaceInput o then InputFilename o
  else if String.eqb (OutputFilename o) EmptyString
       then "reduced.ll"%string
       else (OutputFilename o +:+ ".ll")%string.

Definition isCopy {E} (a : Action E) : bool :=
  match a with CopyFile _ _ => true | _ => false end.

(** * Views of the pass used in the statements *)

Fixpoint keepLoop (ChunksToKeep : list Chunk) (Fs : list Function)
    (st : gset string * nat * Z) : option (gset string * nat * Z) :=
  match Fs with
  | [] => Some st
  | F :: Fs' =>
      match keepStep ChunksToKeep F st with
      | None => None
      | Some st' => keepLoop ChunksToKeep Fs' st'
      end
  end.

Definition outOfChunk (FuncsToKeep : gset string) (F : Function) : bool :=
  negb (isDeclaration F) && negb (bool_decide (Name F ∈ FuncsToKeep)).

(** The functions the second loop collects. *)
Definition toRemove (FuncsToKeep : gset string) (Fs : list Function)
  : list string :=
  Name <$> filter (fun F => outOfChunk FuncsToKeep F = true) Fs.

Definition replaceAll (olds : list Value) (x : Module) : Module :=
  foldl (fun x old => replaceUses old x) x olds.

Definition removeFunctions (names : list string) (x : Module) : Module :=
  foldl (fun x name => removeFunction name x) x names.

Definition removeInstructions (ids : list nat) (x : Module) : Module :=
  foldl (fun x id => removeInstruction id x) x ids.

(** A call whose callee is not a Function. *)
Definition unresolved (I : Instruction) : bool :=
  match I with
  | CallInst _ callee _ =>
      match getCalledFunction callee with None => true | Some _ => false end
  | OtherInst _ _ => false
  end.

(** What the sweep reads of the module: for every instruction, in order,
    its id and whether it is an unresolved call. *)
Definition sigI (I : Instruction) : nat * bool := (instId I, unresolved I).
Definition sigB (BB : BasicBlock) : list (nat * bool) := sigI <$> BB.
Definition sigF (F : Function) : list (list (nat * bool)) := sigB <$> Blocks F.
Definition sigM (x : Module) : list (list (list (nat * bool))) := sigF <$> x.

Definition urB (sB : list (nat * bool)) : list nat :=
  fst <$> filter (fun p => p.2 = true) sB.
Definition urF (sF : list (list (nat * bool))) : list nat :=
  concat (urB <$> sF).
Definition urM (sM : list (list (list (nat * bool)))) : list nat :=
  concat (urF <$> sM).

(** The instructions the sweep collects. *)
Definition unresolvedCalls (x : Module) : list nat := urM (sigM x).

(** The outcome of a stretch of the sweep that collects [ids]. *)
Definition sweepResult (m : nat) (ids : list nat) (x : Module) H T acc
  : option (list nat) * Store :=
  (Some (acc ++ ids),
   mkStore (<[m := replaceAll (VInstruction <$> ids) x]> H)
           (T ++ (EvReplaceAllUsesWith m <$> (VInstruction <$> ids)))).

(** The module once the out-of-chunk functions are patched and erased. *)
Definition afterErase (FuncsToKeep : gset string) (x : Module) : Module :=
  removeFunctions (toRemove FuncsToKeep x)
    (replaceAll (VFunction <$> toRemove FuncsToKeep x) x).

(** The module once the unresolved calls are patched and erased. *)
Definition afterSweep (x : Module) : Module :=
  removeInstructions (unresolvedCalls x)
    (replaceAll (VInstruction <$> unresolvedCalls x) x).

(** The events of one call that returns, in the order they happen. *)
Definition extractEvents (Program Clone : nat) (FuncsToRemove : list string)
    (InstToRemove : list nat) : list Event :=
  [EvCloneModule Program Clone]
  ++ (EvReplaceAllUsesWith Clone <$> (VFunction <$> FuncsToRemove))
  ++ (EvEraseFunction Clone <$> FuncsToRemove)
  ++ (EvReplaceAllUsesWith Clone <$> (VInstruction <$> InstToRemove))
  ++ (EvEraseInstruction Clone <$> InstToRemove).

Definition allInstructions (x : Module) : list Instruction :=
  concat (concat (Blocks <$> x)).

Definition operands (I : Instruction) : list Value :=
  match I with
  | CallInst _ callee args => callee :: args
  | OtherInst _ ops => ops
  end.

Definition replaceAllInstruction (olds : list Value) (I : Instruction)
  : Instruction :=
  foldl (fun I old => replaceInstruction old I) I olds.

Definition numDefined (x : Module) : nat :=
  length (filter (fun F => isDeclaration F = false) x).

(** What [getTargetCount] prints for the functions of the module, the
    first defined one being numbered [n + 1]. *)
Fixpoint indexLines (x : list Function) (n : Z) : list Event :=
  match x with
  | [] => []
  | F :: x' =>
      if isDeclaration F then indexLines x' n
      else [EvOuts (OutStr tab); EvOuts (OutInt (n + 1));
            EvOuts (OutStr ": "); EvOuts (OutStr (Name F));
            EvOuts (OutStr newline)] ++ indexLines x' (n + 1)
  end.

(** The stage an event belongs to. *)
Definition phase (e : Event) : nat :=
  match e with
  | EvCloneModule _ _ => 0
  | EvReplaceAllUsesWith _ (VFunction _) => 1
  | EvEraseFunction _ _ => 2
  | EvReplaceAllUsesWith _ _ => 3
  | EvEraseInstruction _ _ => 4
  | EvOuts _ => 5
  end.

(** An event of an earlier stage happens before any event of a later one. *)
Definition inPhaseOrder (l : list Event) : Prop :=
  forall i j ei ej, l !! i = Some ei -> l !! j = Some ej ->
    (phase ei < phase ej)%nat -> (i < j)%nat.

(** The functions the first loop marks, when it runs to its end. *)
Definition keptSet (ChunksToKeep : list Chunk) (x : Module)
  : option (gset string) :=
  match keepLoop ChunksToKeep x (∅, 0%nat, 1) with
  | Some st => Some st.1.1
  | None => None
  end.

Definition inChunk (c : Chunk) (n : Z) : bool :=
  (begin c <=? n) && (n <=? end_ c).

(** Index [n] lies inside some chunk. *)
Definition covered (ChunksToKeep : list Chunk) (n : Z) : bool :=
  existsb (fun c => inChunk c n) ChunksToKeep.

(** Ascending, non-overlapping, non-empty chunks above [lo]. *)
Fixpoint ascendingFrom (lo : Z) (ChunksToKeep : list Chunk) : bool :=
  match ChunksToKeep with
  | [] => true
  | c :: cs => (lo <? begin c) && (begin c <=? end_ c)
               && ascendingFrom (end_ c) cs
  end.

(** The names of the defined functions whose index lies inside a chunk,
    the first defined function of [Fs] having index [fc]. *)
Fixpoint inChunks (ChunksToKeep : list Chunk) (Fs : list Function) (fc : Z)
  : list string :=
  match Fs with
  | [] => []
  | F :: Fs' =>
      if isDeclaration F then inChunks ChunksToKeep Fs' fc
      else if covered ChunksToKeep fc
           then Name F :: inChunks ChunksToKeep Fs' (fc + 1)
           else inChunks ChunksToKeep Fs' (fc + 1)
  end.

(** The chunk vector reaches the last defined function of the module. *)
Definition reachesEnd (ChunksToKeep : list Chunk) (x : Module) : Prop :=
  (0 < numDefined x)%nat ->
  exists c, last ChunksToKeep = Some c /\ Z.of_nat (numDefined x) <= end_ c.

(** The name of a function and whether it is a declaration: what the
    removal of functions reads, and what the patching and the sweep leave
    untouched. *)
Definition shape (F : Function) : string * bool := (Name F, isDeclaration F).

(** The functions that are expected to stay: every declaration, and the
    defined functions whose index lies inside a chunk. *)
Fixpoint expected (ChunksToKeep : list Chunk) (Fs : list Function) (fc : Z)
  : list (string * bool) :=
  match Fs with
  | [] => []
  | F :: Fs' =>
      if isDeclaration F then shape F :: expected ChunksToKeep Fs' fc
      else if covered ChunksToKeep fc
           then shape F :: expected ChunksToKeep Fs' (fc + 1)
           else expected ChunksToKeep Fs' (fc + 1)
  end.

(** * The bisection procedure (section 4.4 of the specification) *)

(** Modelled from the spec: the pass capability of section 4.2
    ([countTargets], [reduce]); the interface that the sources of the
    passes implement (Delta.h) is not among the sources. *)
Class Pass (Artifact : Type) := {
  countTargets : Artifact -> nat;
  reduce : Artifact -> list Chunk -> Artifact
}.

(** Modelled from the spec: the contract of [reduce] in section 4.2 and
    the monotonicity property of section 8, as far as counting goes: a
    candidate built from chunks that leave out some target unit has fewer
    target units.  The contract is not among the sources either. *)
Class Shrinking {Artifact} (P : Pass Artifact) : Prop :=
  shrinks : forall (a : Artifact) (kept : list Chunk) (n : nat),
    (1 <= n <= countTargets a)%nat ->
    covered kept (Z.of_nat n) = false ->
    (countTargets (reduce a kept) < countTargets a)%nat.

(** Modelled from the spec: [computeChunks(N, K)] of section 4.1, [K]
    contiguous ranges over [1, N] whose sizes differ by at most one; the
    function is not among the sources. *)
Definition computeChunks (N K : nat) : list Chunk :=
  (fun i => {| begin := Z.of_nat (i * N / K) + 1;
               end_ := Z.of_nat ((i + 1) * N / K) |}) <$> seq 0 K.

Section Engine.
Context {Artifact : Type} {P : Pass Artifact}.
Variable test : Artifact -> bool.

(** Modelled from the spec: step 3b of section 4.4.  The chunks at the
    positions [todo] are dropped one at a time, in order; the first
    candidate the oracle finds interesting is returned, with the number
    of oracle calls made. *)
Fixpoint tryChunks (best : Artifact) (chunks : list Chunk)
    (todo : list nat) : option Artifact * nat :=
  match todo with
  | [] => (None, 0%nat)
  | i :: todo' =>
      let candidate := reduce best (delete i chunks) in
      if test candidate then (Some candidate, 1%nat)
      else let r := tryChunks best chunks todo' in (r.1, S r.2)
  end.

(** Modelled from the spec: steps 2 to 4 of section 4.4, each turn of
    the loop of step 3 using one unit of fuel.  On a success the
    procedure restarts with [K = 2], after a sweep without success [K]
    is doubled, and it stops when [K > N]. *)
Fixpoint bisect (fuel : nat) (best : Artifact) (K calls : nat)
  : option (Artifact * nat) :=
  match fuel with
  | O => None
  | S fuel' =>
      let N := countTargets best in
      if (K <=? N)%nat then
        let chunks := computeChunks N K in
        match tryChunks best chunks (seq 0 (length chunks)) with
        | (Some candidate, n) => bisect fuel' candidate 2 (calls + n)
        | (None, n) => bisect fuel' best (2 * K) (calls + n)
        end
      else Some (best, calls)
  end.

(** Modelled from the spec: the procedure of section 4.4 from step 1. *)
Definition runPass (fuel : nat) (best : Artifact) : option (Artifact * nat) :=
  if (countTargets best =? 0)%nat then Some (best, 0%nat)
  else bisect fuel best 2 0.

End Engine.

(** The fuel that is enough from a state with [N] targets at granularity
    [K]. *)
Definition enough (N K : nat) : nat := (N * (N + 1) + (N + 1 - K))%nat.

(** * Example data *)

(** [ext] is declared; [f] calls [g] and uses the result; [g] makes an
    indirect call and calls [ext]; [h] calls [f]. *)
Definition exampleModule : Module :=
  [ {| Name := "ext"; Blocks := [] |};
    {| Name := "f";
       Blocks := [[CallInst 1 (VFunction "g") [VOther 0];
                   OtherInst 2 [VInstruction 1]]] |};
    {| Name := "g";
       Blocks := [[CallInst 3 (VOther 7) [];
                   CallInst 4 (VFunction "ext") [VInstruction 3]]] |};
    {| Name := "h"; Blocks := [[CallInst 5 (VFunction "f") []]] |} ].

Definition body (id : nat) : list BasicBlock := [[OtherInst id []]].

(** ** A pass on lists: the target units are the elements *)

Fixpoint keepUnits (kept : list Chunk) (a : list nat) (n : Z) : list nat :=
  match a with
  | [] => []
  | u :: a' =>
      if covered kept n then u :: keepUnits kept a' (n + 1)
      else keepUnits kept a' (n + 1)
  end.

#[local] Instance listPass : Pass (list nat) :=
  {| countTargets := length; reduce a kept := keepUnits kept a 1 |}.

(** A pass that breaks the contract of [reduce]: the candidate is the
    artifact itself, whatever the chunks are. *)
Definition identityPass : Pass nat :=
  {| countTargets := fun a => a; reduce := fun a _ => a |}.

(** Scenario B of section 8: five units, the oracle wants unit 3. *)
Definition wantsThree (a : list nat) : bool := bool_decide (3%nat ∈ a).

(** A run on an input that does not parse, named with a directory. *)
Definition exampleOptions : Options :=
  {| InputFilename := "dir/a.ll"; TestFilename := "test.sh";
     TestArguments := []; OutputFilename := EmptyString;
     ReplaceInput := false |}.

(** The part of a path after its last separator. *)
Fixpoint lastComponent (acc s : string) : string :=
  match s with
  | EmptyString => acc
  | String c s' =>
      if Ascii.eqb c (Ascii.ascii_of_nat 47) then lastComponent EmptyString s'
      else lastComponent (acc +:+ String c EmptyString) s'
  end.

(** Collaborators for that run: nothing parses, the runner records its
    program and the reduced filepath, and the passes reduce nothing. *)
Definition exampleCollaborators : Collaborators :=
  {| TestRunner := option Module * string;
     newTestRunner := fun _ _ ReducedFilepath _ => (None, ReducedFilepath);
     setProgram := fun p t => (p, t.2);
     getReducedFilepath := snd;
     runDeltaPasses := fun t => t;
     parseIRFile := fun _ => None;
     verifyModule := fun _ => ([], false);
     current_path := inr "/work"%string;
     create_directory := fun _ => None;
     path_append := fun a b => (a +:+ "/" +:+ b)%string;
     path_filename := lastComponent EmptyString |}.

(** * Further views of the pass *)

(** The defined functions with the index the first loop gives them, the
    first one having index [n]. *)
Fixpoint numbered (Fs : list Function) (n : Z) : list (Z * string) :=
  match Fs with
  | [] => []
  | F :: Fs' =>
      if isDeclaration F then numbered Fs' n
      else (n, Name F) :: numbered Fs' (n + 1)
  end.

(** The line [getTargetCount] prints for an index and a name. *)
Definition indexLine (p : Z * string) : list Event :=
  [EvOuts (OutStr tab); EvOuts (OutInt p.1); EvOuts (OutStr ": ");
   EvOuts (OutStr p.2); EvOuts (OutStr newline)].

(** The names of the defined functions of a module, in order. *)
Definition definedNames (x : Module) : list string :=
  Name <$> filter (fun F => isDeclaration F = false) x.

(** An operand after the pass: a function or the result of an
    instruction is as it was or undef, and undef stays.  Nothing is said
    of the other operands: the code rebuilds a constant that is built
    over a removed function. *)
Definition patchedValue (v v' : Value) : Prop :=
  match v with
  | VOther _ => True
  | _ => v' = v \/ v' = VUndef
  end.

(** An instruction after the pass: the same instruction, with as many
    operands, each one patched. *)
Definition patchedInstruction (I I' : Instruction) : Prop :=
  match I, I' with
  | CallInst id callee args, CallInst id' callee' args' =>
      id' = id /\ patchedValue callee callee' /\ Forall2 patchedValue args args'
  | OtherInst id ops, OtherInst id' ops' =>
      id' = id /\ Forall2 patchedValue ops ops'
  | _, _ => False
  end.

(** Every function used as an operand is a function of the module. *)
Definition wellReferenced (x : Module) : Prop :=
  forall I name, I ∈ allInstructions x -> VFunction name ∈ operands I ->
    name ∈ Name <$> x.

(** Every index from 1 to the number of defined functions lies inside a
    chunk. *)
Definition coversAll (ChunksToKeep : list Chunk) (x : Module) : Prop :=
  forall k, 1 <= k <= Z.of_nat (numDefined x) -> covered ChunksToKeep k = true.

(** The operand is not a function, or a function of the module. *)
Definition isReferenced (x : Module) (v : Value) : bool :=
  match v with
  | VFunction name => bool_decide (name ∈ Name <$> x)
  | _ => true
  end.

(** The number of indices the chunks hold. *)
Definition chunkSizes (ChunksToKeep : list Chunk) : Z :=
  foldr (fun c n => end_ c - begin c + 1 + n) 0 ChunksToKeep.

(** What goes to the standard error. *)
Definition isErrs {E} (a : Action E) : bool :=
  match a with ErrsDiagnostic _ | Errs _ => true | _ => false end.

(** The reports [main] prints on the standard output. *)
Definition isOuts {E} (a : Action E) : bool :=
  match a with Outs _ => true | _ => false end.

Definition isRun {E} (a : Action E) : bool :=
  match a with RunDeltaPasses _ => true | _ => false end.

Definition isCreate {E} (a : Action E) : bool :=
  match a with CreateDirectory _ => true | _ => false end.

(** ** A module whose calls are all resolved *)

(** [ext] is declared, [f] calls [ext], [g] calls [f]. *)
Definition resolvedModule : Module :=
  [ {| Name := "ext"; Blocks := [] |};
    {| Name := "f"; Blocks := [[CallInst 1 (VFunction "ext") [VOther 0]]] |};
    {| Name := "g";
       Blocks := [[CallInst 2 (VFunction "f") []; OtherInst 3 [VInstruction 2]]] |} ].

(** ** More runs of the driver *)

(** Collaborators as in [exampleCollaborators], with the given answers of
    [current_path], [create_directory] and [parseIRFile]. *)
Definition collaboratorsWith (cwd : string + string)
    (create : string -> option string) (parse : string -> option Module)
  : Collaborators :=
  {| TestRunner := option Module * string;
     newTestRunner := fun _ _ ReducedFilepath _ => (None, ReducedFilepath);
     setProgram := fun p t => (p, t.2);
     getReducedFilepath := snd;
     runDeltaPasses := fun t => t;
     parseIRFile := parse;
     verifyModule := fun _ => ([], false);
     current_path := cwd;
     create_directory := create;
     path_append := fun a b => (a +:+ "/" +:+ b)%string;
     path_filename := lastComponent EmptyString |}.

(** * Theorems *)

(** ** Running the primitives *)

(** Enters the body of a loop: the outer bind of [forEach], then the bind
    that reads the element the iterator points at. *)
Ltac loop_step := unfold bind at 1; cbv beta; unfold bind at 1.

Lemma bind_run {A B} (c : Exec A) (k : A -> Exec B) s a s' :
  c s = (Some a, s') -> bind c k s = k a s'.
Proof. intros E. unfold bind. by rewrite E. Qed.

Lemma bind_fail {A B} (c : Exec A) (k : A -> Exec B) s s' :
  c s = (None, s') -> bind c k s = (None, s').
Proof. intros E. unfold bind. by rewrite E. Qed.

Lemma replaceAllUsesWithUndef_run m old H T x :
  H !! m = Some x ->
  replaceAllUsesWithUndef m old (mkStore H T)
  = (Some tt, mkStore (<[m := replaceUses old x]> H)
                      (T ++ [EvReplaceAllUsesWith m old])).
Proof.
  intros E. unfold replaceAllUsesWithUndef, bind, getModule. simpl.
  by rewrite E.
Qed.

Lemma eraseFunction_run m name H T x :
  H !! m = Some x ->
  eraseFunction m name (mkStore H T)
  = (Some tt, mkStore (<[m := removeFunction name x]> H)
                      (T ++ [EvEraseFunction m name])).
Proof.
  intros E. unfold eraseFunction, bind, getModule. simpl. by rewrite E.
Qed.

Lemma eraseInstruction_run m id H T x :
  H !! m = Some x ->
  eraseInstruction m id (mkStore H T)
  = (Some tt, mkStore (<[m := removeInstruction id x]> H)
                      (T ++ [EvEraseInstruction m id])).
Proof.
  intros E. unfold eraseInstruction, bind, getModule. simpl. by rewrite E.
Qed.

Lemma functionAt_run m i H T x :
  H !! m = Some x ->
  functionAt m i (mkStore H T) = (x !! i, mkStore H T).
Proof.
  intros E. unfold functionAt, bind, getModule, liftOption. simpl.
  by rewrite E.
Qed.

Lemma lookup_insert_same {A} (H : list A) m (x y : A) :
  H !! m = Some x -> <[m := y]> H !! m = Some y.
Proof.
  intros E. apply list_lookup_insert_eq. by eapply lookup_lt_Some.
Qed.

(** ** The first loop *)

Lemma keepLoop_run_from kept m x s : 
  Heap s !! m = Some x ->
  forall n a st, length x = (a + n)%nat ->
  forEach (seq a n)
    (fun i st => F <- functionAt m i ;; liftOption (keepStep kept F st)) st s
  = (keepLoop kept (drop a x) st, s).
Proof.
  intros E. induction n as [|n IH]; intros a st L.
  - rewrite drop_ge by lia. done.
  - assert (is_Some (x !! a)) as [F EF] by (apply lookup_lt_is_Some; lia).
    rewrite (drop_S _ _ _ EF). cbn [seq forEach keepLoop].
    unfold bind at 1. unfold functionAt, bind, getModule, liftOption.
    rewrite E, EF. destruct (keepStep kept F st) as [st'|]; [|done].
    apply IH. lia.
Qed.

Lemma keepLoop_run kept m x s st :
  Heap s !! m = Some x ->
  forEachFunction m (fun _ F st => liftOption (keepStep kept F st)) st s
  = (keepLoop kept x st, s).
Proof.
  intros E. unfold forEachFunction, bind at 1. unfold getModule. rewrite E.
  by rewrite (keepLoop_run_from kept m x s E (length x) 0%nat st).
Qed.

(** ** The second loop *)

Lemma toRemove_replaceUses keep old (x : Module) :
  toRemove keep (replaceUses old x) = toRemove keep x.
Proof.
  unfold toRemove, replaceUses. induction x as [|F x IH]; [done|].
  rewrite fmap_cons, !filter_cons.
  assert (outOfChunk keep (replaceFunction old F) = outOfChunk keep F) as ->.
  { unfold outOfChunk, isDeclaration. simpl. by destruct (Blocks F). }
  destruct (decide (outOfChunk keep F = true)); [|exact IH].
  rewrite !fmap_cons. f_equal. exact IH.
Qed.

Lemma toRemove_drop_replaceUses keep old k (x : Module) :
  toRemove keep (drop k (replaceUses old x)) = toRemove keep (drop k x).
Proof.
  unfold replaceUses. rewrite <- fmap_drop. apply toRemove_replaceUses.
Qed.

Lemma patchStep_run keep m F acc H T x :
  H !! m = Some x ->
  patchStep m keep F acc (mkStore H T)
  = if outOfChunk keep F
    then (Some (acc ++ [Name F]),
          mkStore (<[m := replaceUses (VFunction (Name F)) x]> H)
                  (T ++ [EvReplaceAllUsesWith m (VFunction (Name F))]))
    else (Some acc, mkStore H T).
Proof.
  intros E. unfold patchStep. fold (outOfChunk keep F).
  destruct (outOfChunk keep F); [|done].
  unfold bind. by rewrite (replaceAllUsesWithUndef_run m _ H T x E).
Qed.

Lemma toRemove_cons keep F Fs :
  toRemove keep (F :: Fs)
  = if outOfChunk keep F then Name F :: toRemove keep Fs
    else toRemove keep Fs.
Proof.
  unfold toRemove. rewrite filter_cons.
  destruct (outOfChunk keep F); [by rewrite decide_True|by rewrite decide_False].
Qed.

Lemma patchLoop_run_from keep m :
  forall n a (x : Module) H T acc,
  H !! m = Some x -> length x = (a + n)%nat ->
  forEach (seq a n)
    (fun i acc => F <- functionAt m i ;; patchStep m keep F acc) acc
    (mkStore H T)
  = (Some (acc ++ toRemove keep (drop a x)),
     mkStore (<[m := replaceAll (VFunction <$> toRemove keep (drop a x)) x]> H)
             (T ++ (EvReplaceAllUsesWith m
                      <$> (VFunction <$> toRemove keep (drop a x))))).
Proof.
  induction n as [|n IH]; intros a x H T acc E L.
  - rewrite drop_ge by lia. cbn. rewrite !app_nil_r.
    by rewrite list_insert_id.
  - assert (is_Some (x !! a)) as [F EF] by (apply lookup_lt_is_Some; lia).
    rewrite (drop_S _ _ _ EF), toRemove_cons. cbn [seq forEach].
    loop_step.
    rewrite (functionAt_run m a H T x E), EF.
    rewrite (patchStep_run keep m F acc H T x E).
    destruct (outOfChunk keep F) eqn:EO.
    + rewrite (IH (S a) (replaceUses (VFunction (Name F)) x));
        [| by eapply lookup_insert_same
         | unfold replaceUses; rewrite length_fmap; lia].
      rewrite list_insert_insert_eq.
      rewrite !toRemove_drop_replaceUses.
      rewrite !fmap_cons. cbn [replaceAll foldl].
      by rewrite <- !app_assoc.
    + by rewrite (IH (S a) x H T acc E) by lia.
Qed.

Lemma patchLoop_run keep m (x : Module) H T :
  H !! m = Some x ->
  forEachFunction m (fun _ F acc => patchStep m keep F acc) [] (mkStore H T)
  = (Some (toRemove keep x),
     mkStore (<[m := replaceAll (VFunction <$> toRemove keep x) x]> H)
             (T ++ (EvReplaceAllUsesWith m <$> (VFunction <$> toRemove keep x)))).
Proof.
  intros E. unfold forEachFunction, bind at 1. unfold getModule. simpl.
  rewrite E.
  by rewrite (patchLoop_run_from keep m (length x) 0%nat x H T [] E).
Qed.

(** ** The erasing loops *)

Lemma eraseFunctions_run m names :
  forall (x : Module) H T, H !! m = Some x ->
  forEach names (fun F _ => eraseFunction m F) tt (mkStore H T)
  = (Some tt, mkStore (<[m := removeFunctions names x]> H)
                      (T ++ (EvEraseFunction m <$> names))).
Proof.
  induction names as [|name names IH]; intros x H T E.
  - cbn. by rewrite app_nil_r, list_insert_id.
  - cbn [forEach]. unfold bind.
    rewrite (eraseFunction_run m name H T x E).
    rewrite (IH (removeFunction name x)) by by eapply lookup_insert_same.
    rewrite list_insert_insert_eq, fmap_cons. cbn [removeFunctions foldl].
    by rewrite <- app_assoc.
Qed.

Lemma eraseInstructions_run m ids :
  forall (x : Module) H T, H !! m = Some x ->
  forEach ids (fun I _ => eraseInstruction m I) tt (mkStore H T)
  = (Some tt, mkStore (<[m := removeInstructions ids x]> H)
                      (T ++ (EvEraseInstruction m <$> ids))).
Proof.
  induction ids as [|id ids IH]; intros x H T E.
  - cbn. by rewrite app_nil_r, list_insert_id.
  - cbn [forEach]. unfold bind.
    rewrite (eraseInstruction_run m id H T x E).
    rewrite (IH (removeInstruction id x)) by by eapply lookup_insert_same.
    rewrite list_insert_insert_eq, fmap_cons. cbn [removeInstructions foldl].
    by rewrite <- app_assoc.
Qed.

(** ** The sweep over the call instructions *)

Lemma urB_cons p sB :
  urB (p :: sB) = if p.2 then p.1 :: urB sB else urB sB.
Proof.
  unfold urB. rewrite filter_cons.
  destruct (p.2); [by rewrite decide_True|by rewrite decide_False].
Qed.

Lemma replaceAll_app olds olds' (x : Module) :
  replaceAll (olds ++ olds') x = replaceAll olds' (replaceAll olds x).
Proof. apply foldl_app. Qed.

(** Replacing the uses of an instruction changes neither the shape of the
    module nor which calls are unresolved. *)
Lemma sigI_replaceInstruction id I :
  sigI (replaceInstruction (VInstruction id) I) = sigI I.
Proof.
  destruct I as [i callee args|i ops]; [|done].
  unfold sigI. simpl. f_equal. unfold replaceValue.
  destruct callee; by try case_decide.
Qed.

Lemma sigM_replaceUses id (x : Module) :
  sigM (replaceUses (VInstruction id) x) = sigM x.
Proof.
  unfold sigM, replaceUses. rewrite <- list_fmap_compose.
  apply list_fmap_ext. intros _ F _. unfold sigF. simpl.
  rewrite <- list_fmap_compose. apply list_fmap_ext. intros _ BB _.
  unfold sigB, replaceBlock. simpl. rewrite <- list_fmap_compose.
  apply list_fmap_ext. intros _ I _. apply sigI_replaceInstruction.
Qed.

Lemma sigM_replaceAll ids (x : Module) :
  sigM (replaceAll (VInstruction <$> ids) x) = sigM x.
Proof.
  revert x. induction ids as [|id ids IH]; intros x; [done|].
  rewrite fmap_cons. cbn [replaceAll foldl].
  fold (replaceAll (VInstruction <$> ids) (replaceUses (VInstruction id) x)).
  by rewrite IH, sigM_replaceUses.
Qed.

Lemma sweepStep_run m I acc H T x :
  H !! m = Some x ->
  sweepStep m I acc (mkStore H T)
  = if unresolved I
    then (Some (acc ++ [instId I]),
          mkStore (<[m := replaceUses (VInstruction (instId I)) x]> H)
                  (T ++ [EvReplaceAllUsesWith m (VInstruction (instId I))]))
    else (Some acc, mkStore H T).
Proof.
  intros E. destruct I as [id callee args|id ops]; [|done].
  unfold sweepStep, unresolved. destruct (getCalledFunction callee); [done|].
  unfold bind. by rewrite (replaceAllUsesWithUndef_run m _ H T x E).
Qed.

Lemma blockAt_run m i j H T (x : Module) sF :
  H !! m = Some x -> sigM x !! i = Some sF ->
  exists oBB, blockAt m i j (mkStore H T) = (oBB, mkStore H T)
              /\ sigB <$> oBB = sF !! j.
Proof.
  intros E EF. unfold sigM in EF. rewrite list_lookup_fmap in EF.
  destruct (x !! i) as [F|] eqn:EFi; [|done]. simpl in EF.
  injection EF as <-.
  exists (Blocks F !! j). split.
  - unfold blockAt, bind. rewrite (functionAt_run m i H T x E), EFi. done.
  - unfold sigF. by rewrite list_lookup_fmap.
Qed.

Lemma instructionAt_run m i j k H T (x : Module) sF sB :
  H !! m = Some x -> sigM x !! i = Some sF -> sF !! j = Some sB ->
  exists oI, instructionAt m i j k (mkStore H T) = (oI, mkStore H T)
             /\ sigI <$> oI = sB !! k.
Proof.
  intros E EF EB.
  destruct (blockAt_run m i j H T x sF E EF) as (oBB & R & S').
  rewrite EB in S'. destruct oBB as [BB|]; [|done]. injection S' as <-.
  exists (BB !! k). split.
  - unfold instructionAt, bind. by rewrite R.
  - unfold sigB. by rewrite list_lookup_fmap.
Qed.

Section Sweep.
Variable m : nat.

Lemma sweepResult_nil (x : Module) H T acc :
  H !! m = Some x -> sweepResult m [] x H T acc = (Some acc, mkStore H T).
Proof.
  intros E. unfold sweepResult. cbn. by rewrite !app_nil_r, list_insert_id.
Qed.

(** Composition of two consecutive stretches of the sweep. *)
Lemma sweepResult_app ids ids' (x : Module) H T acc :
  sweepResult m ids'
    (replaceAll (VInstruction <$> ids) x)
    (<[m := replaceAll (VInstruction <$> ids) x]> H)
    (T ++ (EvReplaceAllUsesWith m <$> (VInstruction <$> ids)))
    (acc ++ ids)
  = sweepResult m (ids ++ ids') x H T acc.
Proof.
  unfold sweepResult.
  by rewrite list_insert_insert_eq, !fmap_app, replaceAll_app, <- !app_assoc.
Qed.

Lemma sweepInstructions_run_from i j :
  forall n k (x : Module) sF sB H T acc,
  H !! m = Some x -> sigM x !! i = Some sF -> sF !! j = Some sB ->
  length sB = (k + n)%nat ->
  forEach (seq k n)
    (fun k acc => I <- instructionAt m i j k ;; sweepStep m I acc) acc
    (mkStore H T)
  = sweepResult m (urB (drop k sB)) x H T acc.
Proof.
  induction n as [|n IH]; intros k x sF sB H T acc E EF EB L.
  - rewrite drop_ge by lia. by rewrite sweepResult_nil.
  - assert (is_Some (sB !! k)) as [p Ep] by (apply lookup_lt_is_Some; lia).
    rewrite (drop_S _ _ _ Ep), urB_cons. cbn [seq forEach].
    loop_step.
    destruct (instructionAt_run m i j k H T x sF sB E EF EB)
      as (oI & R & S').
    rewrite R. rewrite Ep in S'. destruct oI as [I|]; [|done].
    injection S' as <-. rewrite (sweepStep_run m I acc H T x E).
    unfold sigI. cbn [fst snd]. destruct (unresolved I).
    + erewrite (IH (S k) (replaceUses (VInstruction (instId I)) x));
        [| by eapply lookup_insert_same
         | by rewrite sigM_replaceUses | done | lia ].
      exact (sweepResult_app [instId I] _ x H T acc).
    + by erewrite IH by (done || lia).
Qed.

Lemma sweepInstructions_run i j (x : Module) sF sB H T acc :
  H !! m = Some x -> sigM x !! i = Some sF -> sF !! j = Some sB ->
  forEachInstruction m i j (fun I acc => sweepStep m I acc) acc
    (mkStore H T)
  = sweepResult m (urB sB) x H T acc.
Proof.
  intros E EF EB. unfold forEachInstruction, bind at 1.
  destruct (blockAt_run m i j H T x sF E EF) as (oBB & R & S').
  rewrite R. rewrite EB in S'. destruct oBB as [BB|]; [|done].
  injection S' as <-.
  erewrite (sweepInstructions_run_from i j (length BB) 0%nat); try done.
  unfold sigB. by rewrite length_fmap.
Qed.

Lemma sweepBlocks_run_from i :
  forall n j (x : Module) sF H T acc,
  H !! m = Some x -> sigM x !! i = Some sF ->
  length sF = (j + n)%nat ->
  forEach (seq j n)
    (fun j acc =>
       BB <- blockAt m i j ;;
       forEachInstruction m i j (fun I acc => sweepStep m I acc) acc) acc
    (mkStore H T)
  = sweepResult m (urF (drop j sF)) x H T acc.
Proof.
  induction n as [|n IH]; intros j x sF H T acc E EF L.
  - rewrite drop_ge by lia. by rewrite sweepResult_nil.
  - assert (is_Some (sF !! j)) as [sB EB] by (apply lookup_lt_is_Some; lia).
    rewrite (drop_S _ _ _ EB). cbn [seq forEach].
    loop_step.
    destruct (blockAt_run m i j H T x sF E EF) as (oBB & R & S').
    rewrite R. rewrite EB in S'. destruct oBB as [BB|]; [|done].
    rewrite (sweepInstructions_run i j x sF sB H T acc E EF EB).
    unfold sweepResult at 1.
    erewrite (IH (S j));
      [| by eapply lookup_insert_same
       | by rewrite sigM_replaceAll | lia ].
    rewrite sweepResult_app. unfold urF. by rewrite fmap_cons.
Qed.

Lemma sweepBlocks_run i (x : Module) sF H T acc :
  H !! m = Some x -> sigM x !! i = Some sF ->
  forEachBlock m i
    (fun j _ acc =>
       forEachInstruction m i j (fun I acc => sweepStep m I acc) acc) acc
    (mkStore H T)
  = sweepResult m (urF sF) x H T acc.
Proof.
  intros E EF. unfold forEachBlock, bind at 1.
  rewrite (functionAt_run m i H T x E).
  pose proof EF as EF'. unfold sigM in EF'.
  rewrite list_lookup_fmap in EF'.
  destruct (x !! i) as [F|]; [|done]. injection EF' as <-.
  erewrite (sweepBlocks_run_from i (length (Blocks F)) 0%nat); try done.
  unfold sigF. by rewrite length_fmap.
Qed.

Lemma sweepFunctions_run_from :
  forall n i (x : Module) H T acc,
  H !! m = Some x -> length (sigM x) = (i + n)%nat ->
  forEach (seq i n)
    (fun i acc =>
       F <- functionAt m i ;;
       forEachBlock m i
         (fun j _ acc =>
            forEachInstruction m i j (fun I acc => sweepStep m I acc) acc)
         acc) acc
    (mkStore H T)
  = sweepResult m (urM (drop i (sigM x))) x H T acc.
Proof.
  induction n as [|n IH]; intros i x H T acc E L.
  - rewrite drop_ge by lia. by rewrite sweepResult_nil.
  - assert (is_Some (sigM x !! i)) as [sF EF]
      by (apply lookup_lt_is_Some; lia).
    rewrite (drop_S _ _ _ EF). cbn [seq forEach].
    loop_step.
    rewrite (functionAt_run m i H T x E).
    pose proof EF as EF'. unfold sigM in EF'.
    rewrite list_lookup_fmap in EF'.
    destruct (x !! i) as [F|]; [|done].
    rewrite (sweepBlocks_run i x sF H T acc E EF).
    unfold sweepResult at 1.
    erewrite (IH (S i));
      [| by eapply lookup_insert_same
       | rewrite sigM_replaceAll; lia ].
    rewrite sigM_replaceAll, sweepResult_app. unfold urM.
    by rewrite fmap_cons.
Qed.

Lemma sweep_run (x : Module) H T :
  H !! m = Some x ->
  forEachFunction m
    (fun i _ acc =>
       forEachBlock m i
         (fun j _ acc =>
            forEachInstruction m i j (fun I acc => sweepStep m I acc) acc)
         acc) [] (mkStore H T)
  = sweepResult m (unresolvedCalls x) x H T [].
Proof.
  intros E. unfold forEachFunction, bind at 1. unfold getModule. simpl.
  rewrite E.
  rewrite (sweepFunctions_run_from (length x) 0%nat x H T [] E); [done|].
  unfold sigM. by rewrite length_fmap.
Qed.

End Sweep.

(** ** The whole of [extractChunksFromModule] *)

Lemma insert_fresh {A} (H : list A) (x y : A) :
  <[length H := y]> (H ++ [x]) = H ++ [y].
Proof.
  rewrite insert_app_r_alt by lia. by rewrite Nat.sub_diag.
Qed.

Lemma lookup_fresh {A} (H : list A) (x : A) :
  (H ++ [x]) !! length H = Some x.
Proof. by rewrite list_lookup_middle. Qed.

Lemma CloneModule_run P H T (x : Module) :
  H !! P = Some x ->
  CloneModule P (mkStore H T)
  = (Some (length H),
     mkStore (H ++ [x]) (T ++ [EvCloneModule P (length H)])).
Proof.
  intros E. unfold CloneModule, bind, getModule. simpl. by rewrite E.
Qed.

Lemma extractChunksFromModule_run kept P H T (x : Module) st :
  H !! P = Some x ->
  keepLoop kept x (∅, 0%nat, 1) = Some st ->
  extractChunksFromModule kept P (mkStore H T)
  = (Some (length H),
     mkStore (H ++ [afterSweep (afterErase st.1.1 x)])
             (T ++ extractEvents P (length H) (toRemove st.1.1 x)
                     (unresolvedCalls (afterErase st.1.1 x)))).
Proof.
  intros E K. unfold extractChunksFromModule.
  rewrite (bind_run _ _ _ _ _ (CloneModule_run P H T x E)).
  erewrite bind_run; cycle 1.
  { rewrite (keepLoop_run kept _ x) by apply lookup_fresh. by rewrite K. }
  cbv zeta.
  erewrite bind_run by (apply patchLoop_run, lookup_fresh).
  rewrite insert_fresh.
  erewrite bind_run by (apply eraseFunctions_run, lookup_fresh).
  rewrite insert_fresh.
  erewrite bind_run by (apply sweep_run, lookup_fresh).
  unfold sweepResult. rewrite insert_fresh.
  erewrite bind_run by (apply eraseInstructions_run, lookup_fresh).
  rewrite insert_fresh. unfold ret, extractEvents, afterSweep, afterErase.
  by rewrite <- !app_assoc.
Qed.

Lemma extractChunksFromModule_undefined kept P H T (x : Module) :
  H !! P = Some x ->
  keepLoop kept x (∅, 0%nat, 1) = None ->
  extractChunksFromModule kept P (mkStore H T)
  = (None, mkStore (H ++ [x]) (T ++ [EvCloneModule P (length H)])).
Proof.
  intros E K. unfold extractChunksFromModule.
  rewrite (bind_run _ _ _ _ _ (CloneModule_run P H T x E)).
  erewrite bind_fail; [done|].
  rewrite (keepLoop_run kept _ x) by apply lookup_fresh. by rewrite K.
Qed.

Lemma extractChunksFromModule_dangling kept P s :
  Heap s !! P = None ->
  extractChunksFromModule kept P s = (None, s).
Proof.
  intros E. unfold extractChunksFromModule, CloneModule, bind, getModule.
  by rewrite E.
Qed.

(** [extractChunks] in terms of the three stages. *)
Lemma extractChunks_eq kept (x : Module) :
  extractChunks kept x
  = match keepLoop kept x (∅, 0%nat, 1) with
    | Some st => Some (afterSweep (afterErase st.1.1 x))
    | None => None
    end.
Proof.
  unfold extractChunks, initial.
  destruct (keepLoop kept x (∅, 0%nat, 1)) as [st|] eqn:K.
  - rewrite (extractChunksFromModule_run kept 0%nat [x] [] x st eq_refl K).
    simpl. done.
  - by rewrite (extractChunksFromModule_undefined kept 0%nat [x] [] x eq_refl K).
Qed.

(** Every call either returns a clone or stops in the first loop. *)
Lemma extractChunksFromModule_cases kept P s :
  let r := extractChunksFromModule kept P s in
  (Heap s !! P = None /\ r = (None, s))
  \/ (exists x, Heap s !! P = Some x
        /\ keepLoop kept x (∅, 0%nat, 1) = None
        /\ r = (None, mkStore (Heap s ++ [x])
                        (Trace s ++ [EvCloneModule P (length (Heap s))])))
  \/ (exists x st, Heap s !! P = Some x
        /\ keepLoop kept x (∅, 0%nat, 1) = Some st
        /\ r = (Some (length (Heap s)),
                mkStore (Heap s ++ [afterSweep (afterErase st.1.1 x)])
                  (Trace s ++ extractEvents P (length (Heap s))
                     (toRemove st.1.1 x)
                     (unresolvedCalls (afterErase st.1.1 x))))).
Proof.
  destruct s as [H T]. simpl.
  destruct (H !! P) as [x|] eqn:E.
  - right. destruct (keepLoop kept x (∅, 0%nat, 1)) as [st|] eqn:K.
    + right. exists x, st. split; [done|]. split; [done|].
      by apply extractChunksFromModule_run.
    + left. exists x. split; [done|]. split; [done|].
      by apply extractChunksFromModule_undefined.
  - left. split; [done|]. by apply extractChunksFromModule_dangling.
Qed.

(** ** The instructions of a module *)

Lemma allInstructions_cons F (x : Module) :
  allInstructions (F :: x) = concat (Blocks F) ++ allInstructions x.
Proof. unfold allInstructions. by rewrite fmap_cons, concat_cons, concat_app. Qed.

Lemma concat_fmap_fmap {A B} (f : A -> B) (ls : list (list A)) :
  concat (fmap (M:=list) f <$> ls) = f <$> concat ls.
Proof.
  induction ls as [|l ls IH]; [done|].
  by rewrite fmap_cons, !concat_cons, fmap_app, IH.
Qed.

Lemma concat_fmap_filter {A} (P : A -> Prop) `{!forall a, Decision (P a)}
    (ls : list (list A)) :
  concat ((fun l : list A => filter P l) <$> ls) = filter P (concat ls).
Proof.
  induction ls as [|l ls IH]; [done|].
  by rewrite fmap_cons, !concat_cons, filter_app, IH.
Qed.

Lemma allInstructions_replaceUses old (x : Module) :
  allInstructions (replaceUses old x)
  = replaceInstruction old <$> allInstructions x.
Proof.
  induction x as [|F x IH]; [done|].
  unfold replaceUses in *. rewrite fmap_cons, !allInstructions_cons, fmap_app, IH.
  f_equal. simpl. apply (concat_fmap_fmap (replaceInstruction old)).
Qed.

Lemma allInstructions_removeInstruction id (x : Module) :
  allInstructions (removeInstruction id x)
  = filter (fun I => instId I ≠ id) (allInstructions x).
Proof.
  induction x as [|F x IH]; [done|].
  unfold removeInstruction in *.
  rewrite fmap_cons, !allInstructions_cons, filter_app, IH.
  f_equal. simpl. apply (concat_fmap_filter (fun I => instId I ≠ id)).
Qed.

Lemma elem_of_allInstructions_removeInstructions ids :
  forall (x : Module) I,
  I ∈ allInstructions (removeInstructions ids x)
  <-> I ∈ allInstructions x /\ instId I ∉ ids.
Proof.
  induction ids as [|id ids IH]; intros x I.
  - cbn. split; [|tauto]. intros HI. split; [done|]. apply not_elem_of_nil.
  - cbn [removeInstructions foldl].
    fold (removeInstructions ids (removeInstruction id x)).
    rewrite IH, allInstructions_removeInstruction, list_elem_of_filter.
    rewrite not_elem_of_cons. tauto.
Qed.

Lemma allInstructions_replaceAll olds :
  forall x : Module,
  allInstructions (replaceAll olds x)
  = replaceAllInstruction olds <$> allInstructions x.
Proof.
  induction olds as [|old olds IH]; intros x.
  - cbn. by rewrite list_fmap_id.
  - cbn [replaceAll foldl]. fold (replaceAll olds (replaceUses old x)).
    rewrite IH, allInstructions_replaceUses, <- list_fmap_compose.
    done.
Qed.

Lemma sigI_replaceAllInstruction ids I :
  sigI (replaceAllInstruction (VInstruction <$> ids) I) = sigI I.
Proof.
  revert I. induction ids as [|id ids IH]; intros I; [done|].
  rewrite fmap_cons. cbn [replaceAllInstruction foldl].
  fold (replaceAllInstruction (VInstruction <$> ids)
          (replaceInstruction (VInstruction id) I)).
  by rewrite IH, sigI_replaceInstruction.
Qed.

(** The collected ids are the ids of the unresolved calls. *)
Lemma urB_sigB (BB : BasicBlock) :
  urB (sigB BB) = instId <$> filter (fun I => unresolved I = true) BB.
Proof.
  induction BB as [|I BB IH]; [done|].
  unfold sigB in *. rewrite fmap_cons, urB_cons, filter_cons, IH.
  unfold sigI. cbn [fst snd].
  destruct (unresolved I); [by rewrite decide_True|by rewrite decide_False].
Qed.

Lemma unresolvedCalls_eq (x : Module) :
  unresolvedCalls x
  = instId <$> filter (fun I => unresolved I = true) (allInstructions x).
Proof.
  unfold unresolvedCalls, urM, sigM.
  induction x as [|F x IH]; [done|].
  rewrite !fmap_cons, concat_cons, IH, allInstructions_cons, filter_app, fmap_app.
  f_equal. unfold urF, sigF. generalize (Blocks F) as bs.
  induction bs as [|BB bs IHb]; [done|].
  rewrite !fmap_cons, !concat_cons, filter_app, fmap_app, IHb, urB_sigB.
  done.
Qed.

Lemma elem_of_unresolvedCalls (x : Module) I :
  I ∈ allInstructions x -> unresolved I = true ->
  instId I ∈ unresolvedCalls x.
Proof.
  intros HI HU. rewrite unresolvedCalls_eq. apply list_elem_of_fmap.
  exists I. split; [done|]. by apply list_elem_of_filter.
Qed.

(** After the sweep no unresolved call is left. *)
Lemma afterSweep_resolved (x : Module) I :
  I ∈ allInstructions (afterSweep x) -> unresolved I = false.
Proof.
  unfold afterSweep. rewrite elem_of_allInstructions_removeInstructions.
  rewrite allInstructions_replaceAll. intros [HI Hid].
  apply list_elem_of_fmap in HI as (I0 & -> & HI0).
  pose proof (sigI_replaceAllInstruction (unresolvedCalls x) I0) as Hs.
  unfold sigI in Hs. injection Hs as Hi Hu. rewrite Hu.
  destruct (unresolved I0) eqn:EU; [|done].
  exfalso. apply Hid. rewrite Hi. by apply elem_of_unresolvedCalls.
Qed.

(** Replaced values do not come back. *)
Lemma replaceValue_all_ne olds : forall v old,
  old ∈ olds -> old ≠ VUndef ->
  foldl (fun v old => replaceValue old v) v olds ≠ old.
Proof.
  assert (Hundef : forall olds, foldl (fun v old => replaceValue old v) VUndef olds = VUndef).
  { induction olds0 as [|o os IH]; [done|]. cbn [foldl].
    unfold replaceValue at 2. by case_decide. }
  assert (Hne : forall olds v old, v ≠ old -> old ≠ VUndef ->
     foldl (fun v old => replaceValue old v) v olds ≠ old).
  { induction olds0 as [|o os IH]; intros v old Hv Ho; [done|].
    cbn [foldl]. unfold replaceValue at 2. case_decide.
    - rewrite Hundef. congruence.
    - by apply IH. }
  induction olds as [|o os IH]; intros v old Hin Ho.
  - by apply elem_of_nil in Hin.
  - cbn [foldl]. apply elem_of_cons in Hin as [<-|Hin].
    + unfold replaceValue at 2. case_decide.
      * rewrite Hundef. congruence.
      * by apply Hne.
    + by apply IH.
Qed.

Lemma operands_replaceAllInstruction olds : forall I,
  operands (replaceAllInstruction olds I)
  = (fun v => foldl (fun v old => replaceValue old v) v olds) <$> operands I.
Proof.
  induction olds as [|old olds IH]; intros I.
  - cbn. by rewrite list_fmap_id.
  - cbn [replaceAllInstruction foldl].
    fold (replaceAllInstruction olds (replaceInstruction old I)).
    rewrite IH. destruct I as [id callee args|id ops]; simpl.
    + f_equal. by rewrite <- list_fmap_compose.
    + by rewrite <- list_fmap_compose.
Qed.

(** After the sweep nothing uses the result of a deleted call. *)
Lemma afterSweep_no_use (x : Module) I id :
  I ∈ allInstructions (afterSweep x) -> id ∈ unresolvedCalls x ->
  VInstruction id ∉ operands I.
Proof.
  unfold afterSweep. rewrite elem_of_allInstructions_removeInstructions.
  rewrite allInstructions_replaceAll. intros [HI _] Hid.
  apply list_elem_of_fmap in HI as (I0 & -> & _).
  rewrite operands_replaceAllInstruction. intros Hin.
  apply list_elem_of_fmap in Hin as (v & Hv & _).
  symmetry in Hv. revert Hv. apply replaceValue_all_ne; [|done].
  apply list_elem_of_fmap. by exists id.
Qed.

(** Once the second loop is done nothing uses a function that is about to
    be erased. *)
Lemma afterPatch_no_use keep (x : Module) I name :
  I ∈ allInstructions (replaceAll (VFunction <$> toRemove keep x) x) ->
  name ∈ toRemove keep x ->
  VFunction name ∉ operands I.
Proof.
  rewrite allInstructions_replaceAll. intros HI Hname.
  apply list_elem_of_fmap in HI as (I0 & -> & _).
  rewrite operands_replaceAllInstruction. intros Hin.
  apply list_elem_of_fmap in Hin as (v & Hv & _).
  symmetry in Hv. revert Hv. apply replaceValue_all_ne; [|done].
  apply list_elem_of_fmap. by exists name.
Qed.

(** ** The counting loop *)

Lemma numDefined_cons F (x : Module) :
  numDefined (F :: x)
  = if isDeclaration F then numDefined x else S (numDefined x).
Proof.
  unfold numDefined. rewrite filter_cons.
  destruct (isDeclaration F); [by rewrite decide_False|by rewrite decide_True].
Qed.

Lemma countLoop_run_from m (x : Module) H :
  H !! m = Some x ->
  forall n a T c, length x = (a + n)%nat ->
  forEach (seq a n) (fun i c => F <- functionAt m i ;; countStep F c) c
    (mkStore H T)
  = (Some (c + Z.of_nat (numDefined (drop a x))),
     mkStore H (T ++ indexLines (drop a x) c)).
Proof.
  intros E. induction n as [|n IH]; intros a T c L.
  - rewrite drop_ge by lia. cbn. by rewrite Z.add_0_r, app_nil_r.
  - assert (is_Some (x !! a)) as [F EF] by (apply lookup_lt_is_Some; lia).
    rewrite (drop_S _ _ _ EF), numDefined_cons. cbn [seq forEach indexLines].
    loop_step.
    rewrite (functionAt_run m a H T x E), EF.
    unfold countStep. destruct (isDeclaration F).
    + unfold ret. by rewrite IH by lia.
    + unfold bind, outs, emit, ret. simpl. rewrite IH by lia.
      rewrite <- !app_assoc. simpl. do 2 f_equal. lia.
Qed.

Lemma getTargetCount_run P H T (x : Module) :
  H !! P = Some x ->
  getTargetCount P (mkStore H T)
  = (Some (Z.of_nat (numDefined x)),
     mkStore H
       (T ++ [EvOuts (OutStr ("----------------------------" +:+ newline));
              EvOuts (OutStr ("Chunk Index Reference:" +:+ newline))]
          ++ indexLines x 0
          ++ [EvOuts (OutStr ("----------------------------" +:+ newline))])).
Proof.
  intros E. unfold getTargetCount.
  unfold bind at 1. unfold outs at 1, emit at 1.
  unfold bind at 1. unfold outs at 1, emit at 1.
  unfold bind at 1. unfold forEachFunction, bind at 1. unfold getModule.
  cbn [Heap Trace]. rewrite E.
  rewrite (countLoop_run_from P x H E (length x) 0%nat) by done.
  unfold bind, outs, emit, ret. cbn [Heap Trace drop].
  rewrite <- !app_assoc. simpl. done.
Qed.

(** ** Order of the events of a call *)

Lemma inPhaseOrder_const p l :
  (forall e, e ∈ l -> phase e = p) -> inPhaseOrder l.
Proof.
  intros Hp i j ei ej Hi Hj Hlt.
  rewrite (Hp ei), (Hp ej) in Hlt; [lia| |];
    eapply list_elem_of_lookup_2; eauto.
Qed.

Lemma inPhaseOrder_app l1 l2 :
  inPhaseOrder l1 -> inPhaseOrder l2 ->
  (forall a b, a ∈ l1 -> b ∈ l2 -> (phase a <= phase b)%nat) ->
  inPhaseOrder (l1 ++ l2).
Proof.
  intros H1 H2 H12 i j ei ej Hi Hj Hlt.
  apply lookup_app_Some in Hi as [Hi|[Li Hi]];
    apply lookup_app_Some in Hj as [Hj|[Lj Hj]].
  - by eapply H1.
  - apply lookup_lt_Some in Hi. lia.
  - assert (phase ej <= phase ei)%nat; [|lia].
    apply H12; eapply list_elem_of_lookup_2; eauto.
  - pose proof (H2 _ _ _ _ Hi Hj Hlt). lia.
Qed.

Lemma phase_fmap (f : nat -> Event) p (xs : list nat) e :
  (forall x, phase (f x) = p) -> e ∈ f <$> xs -> phase e = p.
Proof. intros Hf He. apply list_elem_of_fmap in He as (x & -> & _). apply Hf. Qed.

Lemma phase_fmap_str (f : string -> Event) p (xs : list string) e :
  (forall x, phase (f x) = p) -> e ∈ f <$> xs -> phase e = p.
Proof. intros Hf He. apply list_elem_of_fmap in He as (x & -> & _). apply Hf. Qed.

Lemma extractEvents_inPhaseOrder P C rem ids :
  inPhaseOrder (extractEvents P C rem ids).
Proof.
  unfold extractEvents.
  repeat apply inPhaseOrder_app.
  - apply (inPhaseOrder_const 0%nat). by intros e ->%list_elem_of_singleton.
  - apply (inPhaseOrder_const 1%nat). intros e He.
    rewrite <- list_fmap_compose in He. by apply (phase_fmap_str _ 1%nat) in He.
  - apply (inPhaseOrder_const 2%nat). intros e He.
    by apply (phase_fmap_str _ 2%nat) in He.
  - apply (inPhaseOrder_const 3%nat). intros e He.
    rewrite <- list_fmap_compose in He. by apply (phase_fmap _ 3%nat) in He.
  - apply (inPhaseOrder_const 4%nat). intros e He.
    by apply (phase_fmap _ 4%nat) in He.
  - intros a b Ha Hb. rewrite <- list_fmap_compose in Ha.
    apply (phase_fmap _ 3%nat) in Ha; [|done].
    apply (phase_fmap _ 4%nat) in Hb; [|done]. lia.
  - intros a b Ha Hb. apply (phase_fmap_str _ 2%nat) in Ha; [|done].
    apply elem_of_app in Hb as [Hb|Hb].
    + rewrite <- list_fmap_compose in Hb.
      apply (phase_fmap _ 3%nat) in Hb; [|done]. lia.
    + apply (phase_fmap _ 4%nat) in Hb; [|done]. lia.
  - intros a b Ha Hb. rewrite <- list_fmap_compose in Ha.
    apply (phase_fmap_str _ 1%nat) in Ha; [|done].
    rewrite !elem_of_app in Hb. destruct Hb as [Hb|[Hb|Hb]].
    + apply (phase_fmap_str _ 2%nat) in Hb; [|done]. lia.
    + rewrite <- list_fmap_compose in Hb.
      apply (phase_fmap _ 3%nat) in Hb; [|done]. lia.
    + apply (phase_fmap _ 4%nat) in Hb; [|done]. lia.
  - intros a b ->%list_elem_of_singleton _. simpl. lia.
Qed.

(** ** The first loop on ascending chunks *)

Lemma covered_app cs1 cs2 n :
  covered (cs1 ++ cs2) n = covered cs1 n || covered cs2 n.
Proof. unfold covered. apply existsb_app. Qed.

Lemma covered_cons c cs n :
  covered (c :: cs) n = inChunk c n || covered cs n.
Proof. done. Qed.

Lemma covered_below cs : forall lo n,
  ascendingFrom lo cs = true -> n <= lo -> covered cs n = false.
Proof.
  induction cs as [|c cs IH]; intros lo n Ha Hn; [done|].
  cbn in Ha. apply andb_prop in Ha as [Ha Ha3].
  apply andb_prop in Ha as [Ha1 Ha2].
  rewrite covered_cons, (IH (end_ c) n Ha3) by lia.
  rewrite orb_false_r. apply andb_false_iff. left. lia.
Qed.

Lemma covered_above cs n :
  (forall c, c ∈ cs -> end_ c < n) -> covered cs n = false.
Proof.
  induction cs as [|c cs IH]; intros Hc; [done|].
  rewrite covered_cons, IH by (intros c' Hc'; apply Hc; by right).
  rewrite orb_false_r. unfold inChunk. apply andb_false_iff. right.
  pose proof (Hc c ltac:(by left)). lia.
Qed.

(** The loop with the cursor at [rest]: the chunks before the cursor end
    below [fc], the chunk under the cursor does not, and the last chunk
    reaches the last defined function. *)
Lemma keepLoop_ascending pre : forall Fs rest keep fc lo,
  (forall c, c ∈ pre -> end_ c < fc) ->
  ascendingFrom lo rest = true ->
  (forall c, head rest = Some c -> fc <= end_ c) ->
  ((0 < numDefined Fs)%nat ->
   exists c, last rest = Some c /\ fc + Z.of_nat (numDefined Fs) - 1 <= end_ c) ->
  exists Ix fc',
    keepLoop (pre ++ rest) Fs (keep, length pre, fc)
    = Some (list_to_set (inChunks (pre ++ rest) Fs fc) ∪ keep, Ix, fc').
Proof.
  intros Fs. revert pre.
  induction Fs as [|F Fs IH]; intros pre rest keep fc lo Hpre Hasc Hhead Hlast.
  - exists (length pre), fc. cbn. f_equal. f_equal. f_equal. set_solver.
  - cbn [keepLoop inChunks]. unfold keepStep.
    rewrite numDefined_cons in Hlast.
    destruct (isDeclaration F) eqn:ED.
    { by apply (IH pre rest keep fc lo). }
    destruct Hlast as (cl & Hcl & Hle); [lia|].
    destruct rest as [|c rest]; [done|].
    unfold chunkAt. rewrite list_lookup_middle by done.
    pose proof (Hhead c eq_refl) as Hc.
    cbn in Hasc. apply andb_prop in Hasc as [Hasc Ha3].
    apply andb_prop in Hasc as [Ha1 Ha2].
    assert (covered (pre ++ c :: rest) fc = inChunk c fc) as ->.
    { rewrite covered_app, (covered_above pre), covered_cons by done.
      rewrite (covered_below rest (end_ c)) by (done || lia).
      by rewrite orb_false_r. }
    fold (inChunk c fc).
    destruct (end_ c <=? fc) eqn:Eend.
    + (* the cursor moves to the next chunk *)
      assert (end_ c = fc) as Hfc by lia.
      destruct (IH (pre ++ [c]) rest
                  (if inChunk c fc then {[Name F]} ∪ keep else keep)
                  (fc + 1) (end_ c)) as (Ix & fc' & R).
      * intros c' [Hc'| ->%list_elem_of_singleton]%elem_of_app; [|lia].
        pose proof (Hpre c' Hc'). lia.
      * done.
      * intros c' Hc'. destruct rest as [|c'' rest]; [done|].
        injection Hc' as ->. cbn in Ha3.
        apply andb_prop in Ha3 as [Hx _]. apply andb_prop in Hx as [Hx Hy].
        lia.
      * intros Hpos. destruct rest as [|c'' rest].
        { cbn in Hcl. injection Hcl as <-. lia. }
        exists cl. split; [|lia]. by rewrite last_cons_cons in Hcl.
      * rewrite <- app_assoc in R. cbn [app] in R.
        rewrite length_app in R. cbn [length] in R.
        replace (length pre + 1)%nat with (S (length pre)) in R by lia.
        exists Ix, fc'. rewrite R. f_equal. f_equal. f_equal.
        destruct (inChunk c fc); set_solver.
    + (* the cursor stays *)
      destruct (IH pre (c :: rest)
                  (if inChunk c fc then {[Name F]} ∪ keep else keep)
                  (fc + 1) lo) as (Ix & fc' & R).
      * intros c' Hc'. pose proof (Hpre c' Hc'). lia.
      * cbn. by rewrite Ha1, Ha2, Ha3.
      * intros c' [= <-]. lia.
      * intros Hpos. exists cl. split; [done|]. lia.
      * exists Ix, fc'. rewrite R. f_equal. f_equal. f_equal.
        destruct (inChunk c fc); set_solver.
Qed.

Lemma keptSet_ascending ChunksToKeep (x : Module) :
  ascendingFrom 0 ChunksToKeep = true ->
  reachesEnd ChunksToKeep x ->
  keptSet ChunksToKeep x = Some (list_to_set (inChunks ChunksToKeep x 1)).
Proof.
  intros Hasc Hend. unfold keptSet.
  destruct (keepLoop_ascending [] x ChunksToKeep ∅ 1 0) as (Ix & fc' & R).
  - intros c Hc. by apply elem_of_nil in Hc.
  - done.
  - intros c Hc. destruct ChunksToKeep as [|c' cs]; [done|].
    injection Hc as ->. cbn in Hasc.
    apply andb_prop in Hasc as [Hx _]. apply andb_prop in Hx as [Hx Hy]. lia.
  - intros Hpos. destruct (Hend Hpos) as (c & Hc & Hle).
    exists c. split; [done|]. lia.
  - cbn [app length] in R. rewrite R. cbn. f_equal. set_solver.
Qed.

(** With no chunk at all the first defined function already reads outside
    the vector. *)
Lemma keepLoop_no_chunks : forall Fs keep fc,
  (0 < numDefined Fs)%nat -> keepLoop [] Fs (keep, 0%nat, fc) = None.
Proof.
  induction Fs as [|F Fs IH]; intros keep fc Hpos.
  - cbn in Hpos. lia.
  - rewrite numDefined_cons in Hpos. cbn [keepLoop]. unfold keepStep.
    destruct (isDeclaration F); [by apply IH|done].
Qed.

Lemma extractChunks_no_chunks (x : Module) :
  (0 < numDefined x)%nat -> extractChunks [] x = None.
Proof. intros Hpos. by rewrite extractChunks_eq, keepLoop_no_chunks. Qed.

(** ** What is left of the module *)

Lemma shape_replaceFunction old F : shape (replaceFunction old F) = shape F.
Proof. unfold shape, isDeclaration. simpl. by destruct (Blocks F). Qed.

Lemma shape_removeInstructionIn id F :
  shape (removeInstructionIn id F) = shape F.
Proof. unfold shape, isDeclaration. simpl. by destruct (Blocks F). Qed.

Lemma shape_replaceAll olds : forall x : Module,
  shape <$> replaceAll olds x = shape <$> x.
Proof.
  induction olds as [|old olds IH]; intros x; [done|].
  cbn [replaceAll foldl]. fold (replaceAll olds (replaceUses old x)).
  rewrite IH. unfold replaceUses. rewrite <- list_fmap_compose.
  apply list_fmap_ext. intros _ F _. apply shape_replaceFunction.
Qed.

Lemma shape_removeInstructions ids : forall x : Module,
  shape <$> removeInstructions ids x = shape <$> x.
Proof.
  induction ids as [|id ids IH]; intros x; [done|].
  cbn [removeInstructions foldl].
  fold (removeInstructions ids (removeInstruction id x)).
  rewrite IH. unfold removeInstruction. rewrite <- list_fmap_compose.
  apply list_fmap_ext. intros _ F _. apply shape_removeInstructionIn.
Qed.

Lemma shape_removeFunctions names : forall x : Module,
  shape <$> removeFunctions names x
  = filter (fun p => p.1 ∉ names) (shape <$> x).
Proof.
  induction names as [|n names IH]; intros x.
  - cbn. induction (shape <$> x) as [|p l IHl]; [done|].
    rewrite filter_cons_True by apply not_elem_of_nil. by f_equal.
  - cbn [removeFunctions foldl].
    fold (removeFunctions names (removeFunction n x)).
    rewrite IH. unfold removeFunction.
    induction x as [|F x IHx]; [done|].
    rewrite fmap_cons, !filter_cons. cbn [shape fst].
    destruct (decide (Name F ≠ n)) as [Hne|Heq].
    + rewrite fmap_cons, filter_cons. cbn [shape fst].
      destruct (decide (Name F ∉ names)).
      * rewrite decide_True by (rewrite not_elem_of_cons; done).
        by rewrite IHx.
      * rewrite decide_False by (rewrite not_elem_of_cons; tauto). done.
    + rewrite decide_False; [done|]. rewrite not_elem_of_cons.
      intros [Hn _]. apply Heq. done.
Qed.

Lemma shape_afterSweep (x : Module) : shape <$> afterSweep x = shape <$> x.
Proof.
  unfold afterSweep. by rewrite shape_removeInstructions, shape_replaceAll.
Qed.

Lemma shape_afterErase keep (x : Module) :
  shape <$> afterErase keep x
  = filter (fun p => p.1 ∉ toRemove keep x) (shape <$> x).
Proof.
  unfold afterErase. by rewrite shape_removeFunctions, shape_replaceAll.
Qed.

Lemma numDefined_shape (x : Module) :
  numDefined x = length (filter (fun p => p.2 = false) (shape <$> x)).
Proof.
  unfold numDefined. induction x as [|F x IH]; [done|].
  rewrite fmap_cons, !filter_cons. cbn [shape snd].
  destruct (decide (isDeclaration F = false)); cbn [length]; by rewrite IH.
Qed.

Lemma elem_of_toRemove keep (x : Module) n :
  n ∈ toRemove keep x
  <-> exists F, F ∈ x /\ Name F = n /\ outOfChunk keep F = true.
Proof.
  unfold toRemove. rewrite list_elem_of_fmap. split.
  - intros (F & -> & HF). apply list_elem_of_filter in HF as [HO HF].
    by exists F.
  - intros (F & HF & <- & HO). exists F. split; [done|].
    by apply list_elem_of_filter.
Qed.

Lemma NoDup_Name_inj (x : Module) F G :
  NoDup (Name <$> x) -> F ∈ x -> G ∈ x -> Name F = Name G -> F = G.
Proof.
  induction x as [|H x IH]; intros Hnd HF HG Heq.
  - by apply elem_of_nil in HF.
  - rewrite fmap_cons in Hnd. apply NoDup_cons in Hnd as [Hnot Hnd].
    apply elem_of_cons in HF as [->|HF]; apply elem_of_cons in HG as [->|HG].
    + done.
    + exfalso. apply Hnot. rewrite Heq. by apply list_elem_of_fmap_2.
    + exfalso. apply Hnot. rewrite <- Heq. by apply list_elem_of_fmap_2.
    + by apply IH.
Qed.

(** With unique names, a function is collected by the second loop exactly
    when it is defined and not marked. *)
Lemma toRemove_unique keep (x : Module) F :
  NoDup (Name <$> x) -> F ∈ x ->
  Name F ∈ toRemove keep x
  <-> isDeclaration F = false /\ Name F ∉ keep.
Proof.
  intros Hnd HF. rewrite elem_of_toRemove. unfold outOfChunk. split.
  - intros (G & HG & Heq & HO).
    rewrite (NoDup_Name_inj x F G Hnd HF HG) by done.
    apply andb_prop in HO as [HO1 HO2].
    apply negb_true_iff in HO1, HO2. apply bool_decide_eq_false in HO2.
    done.
  - intros [HD HK]. exists F. split; [done|]. split; [done|].
    rewrite HD. cbn. apply negb_true_iff. by apply bool_decide_eq_false.
Qed.

Lemma inChunks_names kept : forall Fs fc n,
  n ∈ inChunks kept Fs fc -> n ∈ Name <$> Fs.
Proof.
  induction Fs as [|F Fs IH]; intros fc n Hn; [done|].
  cbn [inChunks] in Hn. rewrite fmap_cons.
  destruct (isDeclaration F); [right; by eapply IH|].
  destruct (covered kept fc).
  - apply elem_of_cons in Hn as [->|Hn]; [by left|right; by eapply IH].
  - right. by eapply IH.
Qed.

(** The functions left are the expected ones, whenever the marked set is
    the set of the functions inside the chunks and exactly the defined,
    unmarked functions are removed. *)
Lemma filter_expected kept (keep : gset string) (rem : list string) :
  forall Fs fc,
  NoDup (Name <$> Fs) ->
  (forall F, F ∈ Fs ->
     Name F ∈ rem <-> isDeclaration F = false /\ Name F ∉ keep) ->
  (forall n, n ∈ Name <$> Fs -> n ∈ keep <-> n ∈ inChunks kept Fs fc) ->
  filter (fun p => p.1 ∉ rem) (shape <$> Fs) = expected kept Fs fc.
Proof.
  induction Fs as [|F Fs IH]; intros fc Hnd Hrem Hkeep; [done|].
  rewrite fmap_cons in Hnd. apply NoDup_cons in Hnd as [Hnot Hnd].
  assert (HremF := Hrem F ltac:(by left)).
  assert (HkeepF := Hkeep (Name F) ltac:(rewrite fmap_cons; by left)).
  assert (Hrem' : forall G, G ∈ Fs ->
            Name G ∈ rem <-> isDeclaration G = false /\ Name G ∉ keep).
  { intros G HG. apply Hrem. by right. }
  rewrite fmap_cons, filter_cons. cbn [expected inChunks shape fst] in *.
  destruct (isDeclaration F) eqn:ED.
  - rewrite decide_True by (rewrite HremF; intros [? _]; done).
    f_equal. apply IH; [done..|].
    intros n Hn. apply Hkeep. rewrite fmap_cons. by right.
  - destruct (covered kept fc) eqn:EC.
    + rewrite decide_True.
      2:{ rewrite HremF. intros [_ HK]. apply HK, HkeepF. by left. }
      f_equal. apply IH; [done..|].
      intros n Hn. rewrite (Hkeep n) by (rewrite fmap_cons; by right).
      rewrite elem_of_cons. split; [|tauto].
      intros [->|?]; [done|done].
    + rewrite decide_False.
      2:{ intros HK. apply HK, HremF. split; [done|].
          rewrite HkeepF. intros Hin. by apply inChunks_names in Hin. }
      apply IH; [done..|].
      intros n Hn. apply Hkeep. rewrite fmap_cons. by right.
Qed.

(** On ascending chunks that reach the last defined function, and a module
    with unique function names, [extractChunksFromModule] returns, and
    the module returned holds the declarations and the defined functions
    whose index lies inside a chunk, in their order. *)
Lemma extractChunks_ascending ChunksToKeep (x : Module) :
  ascendingFrom 0 ChunksToKeep = true ->
  reachesEnd ChunksToKeep x ->
  NoDup (Name <$> x) ->
  exists x', extractChunks ChunksToKeep x = Some x'
             /\ shape <$> x' = expected ChunksToKeep x 1.
Proof.
  intros Hasc Hend Hnd.
  pose proof (keptSet_ascending ChunksToKeep x Hasc Hend) as HK.
  unfold keptSet in HK. rewrite extractChunks_eq.
  destruct (keepLoop ChunksToKeep x (∅, 0%nat, 1)) as [st|]; [|done].
  injection HK as HK. eexists. split; [done|].
  rewrite shape_afterSweep, shape_afterErase, HK.
  apply (filter_expected ChunksToKeep
           (list_to_set (inChunks ChunksToKeep x 1))); [done| |].
  - intros F HF. by apply toRemove_unique.
  - intros n _. by rewrite elem_of_list_to_set.
Qed.

(** The first loop marks only functions whose index lies inside a chunk,
    whatever the chunks are. *)
Lemma keepLoop_marks_covered kept : forall Fs keep Ix fc st,
  keepLoop kept Fs (keep, Ix, fc) = Some st ->
  st.1.1 ⊆ keep ∪ list_to_set (inChunks kept Fs fc).
Proof.
  induction Fs as [|F Fs IH]; intros keep Ix fc st R.
  - cbn in R. injection R as <-. set_solver.
  - cbn [keepLoop inChunks] in *. unfold keepStep in R.
    destruct (isDeclaration F); [by apply IH in R|].
    unfold chunkAt in R. destruct (kept !! Ix) as [c|] eqn:Ec; [|done].
    apply IH in R. fold (inChunk c fc) in R.
    destruct (inChunk c fc) eqn:Ein.
    + assert (covered kept fc = true) as ->.
      { apply existsb_exists. exists c. split; [|done].
        apply list_elem_of_In. by eapply list_elem_of_lookup_2. }
      set_solver.
    + destruct (covered kept fc); set_solver.
Qed.

(** Fewer functions are left when some index is outside every chunk. *)
Lemma filter_fewer kept (keep : gset string) (rem : list string) :
  forall Fs fc,
  NoDup (Name <$> Fs) ->
  (forall F, F ∈ Fs ->
     Name F ∈ rem <-> isDeclaration F = false /\ Name F ∉ keep) ->
  (forall n, n ∈ Name <$> Fs -> n ∈ keep -> n ∈ inChunks kept Fs fc) ->
  let left := filter (fun p => p.1 ∉ rem) (shape <$> Fs) in
  (length (filter (fun p => p.2 = false) left) <= numDefined Fs)%nat
  /\ forall k, fc <= k < fc + Z.of_nat (numDefined Fs) ->
       covered kept k = false ->
       (length (filter (fun p => p.2 = false) left) < numDefined Fs)%nat.
Proof.
  induction Fs as [|F Fs IH]; intros fc Hnd Hrem Hkeep.
  - split; [done|]. intros k Hk. cbn in Hk. lia.
  - rewrite fmap_cons in Hnd. apply NoDup_cons in Hnd as [Hnot Hnd].
    assert (HremF := Hrem F ltac:(by left)).
    assert (Hrem' : forall G, G ∈ Fs ->
              Name G ∈ rem <-> isDeclaration G = false /\ Name G ∉ keep).
    { intros G HG. apply Hrem. by right. }
    cbv zeta. rewrite fmap_cons, filter_cons, numDefined_cons.
    cbn [inChunks shape fst] in *.
    destruct (isDeclaration F) eqn:ED.
    + rewrite decide_True by (rewrite HremF; intros [? _]; done).
      rewrite filter_cons. cbn [shape snd]. rewrite ED.
      rewrite decide_False by done.
      apply IH; [done..|].
      intros n Hn. apply Hkeep. rewrite fmap_cons. by right.
    + assert (Hkeep' : forall n, n ∈ Name <$> Fs -> n ∈ keep ->
                n ∈ inChunks kept Fs (fc + 1)).
      { intros n Hn HK.
        pose proof (Hkeep n ltac:(rewrite fmap_cons; by right) HK) as Hin.
        destruct (covered kept fc); [|done].
        apply elem_of_cons in Hin as [->|Hin]; done. }
      destruct (IH (fc + 1) Hnd Hrem' Hkeep') as [Hle Hlt]. cbv zeta in *.
      destruct (decide (Name F ∉ rem)) as [Hin|Hout].
      * rewrite filter_cons. cbn [shape snd]. rewrite ED.
        rewrite decide_True by done.
        cbn [length]. split; [lia|].
        intros k Hk Hc. destruct (decide (k = fc)) as [->|Hne].
        -- exfalso. apply Hin, HremF. split; [done|]. intros HK.
           pose proof (Hkeep (Name F) ltac:(rewrite fmap_cons; by left) HK)
             as Hin'.
           rewrite Hc in Hin'. by apply inChunks_names in Hin'.
        -- pose proof (Hlt k ltac:(lia) Hc). lia.
      * split; [lia|]. intros k Hk Hc. lia.
Qed.

(** Whenever [extractChunksFromModule] returns on a module with unique
    function names and some defined function has its index outside every
    chunk, the module returned has fewer defined functions. *)
Lemma extractChunks_fewer ChunksToKeep (x x' : Module) k :
  extractChunks ChunksToKeep x = Some x' ->
  NoDup (Name <$> x) ->
  1 <= k <= Z.of_nat (numDefined x) ->
  covered ChunksToKeep k = false ->
  (numDefined x' < numDefined x)%nat.
Proof.
  intros R Hnd Hk Hc. rewrite extractChunks_eq in R.
  destruct (keepLoop ChunksToKeep x (∅, 0%nat, 1)) as [st|] eqn:K; [|done].
  injection R as <-.
  rewrite (numDefined_shape (afterSweep _)), shape_afterSweep, shape_afterErase.
  apply (filter_fewer ChunksToKeep st.1.1 (toRemove st.1.1 x) x 1 Hnd)
    with (k := k); [| |lia|done].
  - intros F HF. by apply toRemove_unique.
  - intros n _ Hn. destruct st as [[keep Ix] fc].
    pose proof (keepLoop_marks_covered _ _ _ _ _ _ K) as Hsub.
    cbn [fst] in *. set_solver.
Qed.

(** ** Chunk vectors that cover every defined function *)

Lemma allInstructions_defined (x : Module) I :
  I ∈ allInstructions x -> (0 < numDefined x)%nat.
Proof.
  induction x as [|F x IH]; intros HI.
  - by apply elem_of_nil in HI.
  - rewrite allInstructions_cons in HI. rewrite numDefined_cons.
    unfold isDeclaration. destruct (Blocks F) as [|BB bs]; [|lia].
    by apply IH.
Qed.

(** Keeping the one chunk that covers every defined function still deletes
    the calls whose callee is not a Function: the module returned differs
    from the module passed as soon as that one holds such a call. *)
Lemma extractChunks_all_kept (x : Module) I :
  NoDup (Name <$> x) ->
  I ∈ allInstructions x -> unresolved I = true ->
  exists x',
    extractChunks [mkChunk 1 (Z.of_nat (numDefined x))] x = Some x'
    /\ x' ≠ x.
Proof.
  intros Hnd HI HU. pose proof (allInstructions_defined x I HI) as Hpos.
  destruct (extractChunks_ascending [mkChunk 1 (Z.of_nat (numDefined x))] x)
    as (x' & R & _); [| |done|].
  - cbn. apply andb_true_iff. split; [|done]. apply Z.leb_le. lia.
  - intros _. eexists. split; [done|]. cbn. lia.
  - exists x'. split; [done|]. intros ->.
    rewrite extractChunks_eq in R.
    destruct (keepLoop _ x _) as [st|]; [|done]. injection R as R.
    rewrite <- R in HI. apply afterSweep_resolved in HI. congruence.
Qed.

(** A module without defined functions is returned as it is, whatever the
    chunks are: the first loop reads no chunk. *)
Lemma extractChunks_no_targets ChunksToKeep (x : Module) :
  numDefined x = 0%nat -> extractChunks ChunksToKeep x = Some x.
Proof.
  intros Hz.
  assert (Hdecl : forall F, F ∈ x -> isDeclaration F = true).
  { induction x as [|G x IH]; intros F HF; [by apply elem_of_nil in HF|].
    rewrite numDefined_cons in Hz.
    destruct (isDeclaration G) eqn:EG; [|lia].
    apply elem_of_cons in HF as [->|HF]; [done|by apply IH]. }
  assert (HK : forall st, keepLoop ChunksToKeep x st = Some st).
  { clear Hz. induction x as [|G x IH]; intros st; [done|].
    cbn [keepLoop]. unfold keepStep. destruct st as [[keep Ix] fc].
    rewrite (Hdecl G) by by left. apply IH. intros F HF. apply Hdecl.
    by right. }
  assert (HR : forall keep, toRemove keep x = []).
  { intros keep. clear Hz HK. induction x as [|G x IH]; [done|].
    rewrite toRemove_cons. unfold outOfChunk. rewrite (Hdecl G) by by left.
    cbn. apply IH. intros F HF. apply Hdecl. by right. }
  assert (HU : unresolvedCalls x = []).
  { rewrite unresolvedCalls_eq.
    assert (allInstructions x = []) as ->; [|done].
    clear Hz HK HR. induction x as [|G x IH]; [done|].
    rewrite allInstructions_cons.
    pose proof (Hdecl G ltac:(by left)) as HG. unfold isDeclaration in HG.
    destruct (Blocks G); [|done]. cbn. apply IH. intros F HF. apply Hdecl.
    by right. }
  rewrite extractChunks_eq, HK. cbn [fst]. f_equal.
  assert (afterErase ∅ x = x) as ->.
  { unfold afterErase. by rewrite HR. }
  unfold afterSweep. by rewrite HU.
Qed.

(** ** The claims about [RemoveFunctions] *)

(** C3. Whenever [extractChunksFromModule] returns, its effects on the
    clone happened in this order: the uses of every out-of-chunk function
    were replaced by undef, then these functions were erased, then the
    results of the unresolved calls were replaced by undef, then these
    calls were erased.  So no function is erased before all the
    replacements of function uses are done, and no step of the sweep over
    the calls happens before all the functions are erased; the module the
    erasures start on holds no use of a function to erase. *)
Theorem extractChunksFromModule_phases ChunksToKeep Program s Clone s' :
  extractChunksFromModule ChunksToKeep Program s = (Some Clone, s') ->
  exists x FuncsToKeep FuncsToRemove InstToRemove events,
    Heap s !! Program = Some x
    /\ keptSet ChunksToKeep x = Some FuncsToKeep
    /\ FuncsToRemove = toRemove FuncsToKeep x
    /\ InstToRemove = unresolvedCalls (afterErase FuncsToKeep x)
    /\ Trace s' = Trace s ++ events
    /\ events =
         [EvCloneModule Program Clone]
         ++ (EvReplaceAllUsesWith Clone <$> (VFunction <$> FuncsToRemove))
         ++ (EvEraseFunction Clone <$> FuncsToRemove)
         ++ (EvReplaceAllUsesWith Clone <$> (VInstruction <$> InstToRemove))
         ++ (EvEraseInstruction Clone <$> InstToRemove)
    /\ (forall i j F G,
          events !! i = Some (EvReplaceAllUsesWith Clone (VFunction F)) ->
          events !! j = Some (EvEraseFunction Clone G) -> (i < j)%nat)
    /\ (forall i j G I,
          events !! i = Some (EvEraseFunction Clone G) ->
          (events !! j = Some (EvReplaceAllUsesWith Clone (VInstruction I))
           \/ events !! j = Some (EvEraseInstruction Clone I)) ->
          (i < j)%nat)
    /\ (forall I F,
          I ∈ allInstructions (replaceAll (VFunction <$> FuncsToRemove) x) ->
          F ∈ FuncsToRemove -> VFunction F ∉ operands I).
Proof.
  intros R.
  destruct (extractChunksFromModule_cases ChunksToKeep Program s)
    as [[_ R']|[(x & _ & _ & R')|(x & st & E & K & R')]];
    rewrite R in R'; try discriminate.
  injection R' as -> ->.
  exists x, st.1.1, (toRemove st.1.1 x),
    (unresolvedCalls (afterErase st.1.1 x)),
    (extractEvents Program (length (Heap s)) (toRemove st.1.1 x)
       (unresolvedCalls (afterErase st.1.1 x))).
  split; [done|]. split; [unfold keptSet; by rewrite K|].
  do 4 (split; [done|]).
  pose proof (extractEvents_inPhaseOrder Program (length (Heap s))
                (toRemove st.1.1 x) (unresolvedCalls (afterErase st.1.1 x)))
    as Hord.
  split; [|split].
  - intros i j F G Hi Hj. by apply (Hord _ _ _ _ Hi Hj); simpl; lia.
  - intros i j G I Hi [Hj|Hj]; by apply (Hord _ _ _ _ Hi Hj); simpl; lia.
  - apply afterPatch_no_use.
Qed.

(** C7. Running [extractChunksFromModule] leaves the module [Program]
    (and every other module the store held before the call) as it was:
    the store only grows by the clone. *)
Theorem extractChunksFromModule_preserves_Program ChunksToKeep Program s :
  let s' := (extractChunksFromModule ChunksToKeep Program s).2 in
  Heap s' !! Program = Heap s !! Program /\ Heap s `prefix_of` Heap s'.
Proof.
  destruct (extractChunksFromModule_cases ChunksToKeep Program s)
    as [[_ R]|[(x & E & _ & R)|(x & st & E & _ & R)]];
    cbv zeta in *; rewrite R; simpl.
  - done.
  - split; [|by eexists].
    rewrite lookup_app_l; [done|by eapply lookup_lt_Some].
  - split; [|by eexists].
    rewrite lookup_app_l; [done|by eapply lookup_lt_Some].
Qed.

(** C10. Whenever [extractChunksFromModule] returns, the clone holds no
    call whose callee is not a Function, whether or not that callee ever
    was a removed function; the uses of the result of each deleted call
    were replaced by undef before the call was erased, so the clone holds
    no use of a deleted call; and a module with such a call is never
    returned unchanged, whatever the chunks to keep are. *)
Theorem extractChunksFromModule_sweep ChunksToKeep Program s Clone s' x :
  extractChunksFromModule ChunksToKeep Program s = (Some Clone, s') ->
  Heap s !! Program = Some x ->
  exists x' FuncsToKeep InstToRemove,
    Heap s' !! Clone = Some x'
    /\ keptSet ChunksToKeep x = Some FuncsToKeep
    /\ InstToRemove = unresolvedCalls (afterErase FuncsToKeep x)
    /\ (forall I, I ∈ allInstructions x' -> unresolved I = false)
    /\ (exists before,
          Trace s' = before
            ++ (EvReplaceAllUsesWith Clone <$> (VInstruction <$> InstToRemove))
            ++ (EvEraseInstruction Clone <$> InstToRemove))
    /\ (forall I id, I ∈ allInstructions x' -> id ∈ InstToRemove ->
          VInstruction id ∉ operands I)
    /\ ((exists I, I ∈ allInstructions x /\ unresolved I = true) -> x' ≠ x).
Proof.
  intros R E.
  destruct (extractChunksFromModule_cases ChunksToKeep Program s)
    as [[_ R']|[(y & _ & _ & R')|(y & st & E' & K & R')]];
    rewrite R in R'; try discriminate.
  injection R' as -> ->. rewrite E in E'. injection E' as <-.
  exists (afterSweep (afterErase st.1.1 x)), st.1.1,
    (unresolvedCalls (afterErase st.1.1 x)).
  split; [apply lookup_fresh|]. split; [unfold keptSet; by rewrite K|].
  split; [done|]. split; [apply afterSweep_resolved|].
  split.
  { eexists. cbn [Trace]. unfold extractEvents.
    rewrite !app_assoc. reflexivity. }
  split; [apply afterSweep_no_use|].
  intros (I & HI & HU) Heq. rewrite <- Heq in HI.
  apply afterSweep_resolved in HI. congruence.
Qed.

(** C6. [getTargetCount] returns the number of non-declaration functions
    of the module, leaves every module of the store as it was (it only
    prints), and returns the same number when it is called again. *)
Theorem getTargetCount_stable Program s x :
  Heap s !! Program = Some x ->
  let r := getTargetCount Program s in
  r.1 = Some (Z.of_nat (numDefined x))
  /\ Heap r.2 = Heap s
  /\ (getTargetCount Program r.2).1 = r.1.
Proof.
  intros E. destruct s as [H T]. cbn [Heap] in E. cbv zeta.
  rewrite (getTargetCount_run Program H T x E). cbn [fst snd Heap].
  split; [done|]. split; [done|].
  by rewrite (getTargetCount_run Program H _ x E).
Qed.

(** ** Runs on a small module *)

Example extractChunks_drop_g :
  extractChunks [mkChunk 1 1; mkChunk 3 3] exampleModule
  = Some [ {| Name := "ext"; Blocks := [] |};
           {| Name := "f"; Blocks := [[OtherInst 2 [VUndef]]] |};
           {| Name := "h"; Blocks := [[CallInst 5 (VFunction "f") []]] |} ].
Proof. vm_compute. reflexivity. Qed.

Example extractChunks_keep_all :
  extractChunks [mkChunk 1 3] exampleModule
  = Some [ {| Name := "ext"; Blocks := [] |};
           {| Name := "f";
              Blocks := [[CallInst 1 (VFunction "g") [VOther 0];
                          OtherInst 2 [VInstruction 1]]] |};
           {| Name := "g";
              Blocks := [[CallInst 4 (VFunction "ext") [VUndef]]] |};
           {| Name := "h"; Blocks := [[CallInst 5 (VFunction "f") []]] |} ].
Proof. vm_compute. reflexivity. Qed.

Lemma extractChunksFromModule_phases_witness :
  exists events,
    Trace (extractChunksFromModule [mkChunk 1 1; mkChunk 3 3] 0%nat
             (initial exampleModule)).2
    = events
    /\ forall i j F G,
         events !! i = Some (EvReplaceAllUsesWith 1 (VFunction F)) ->
         events !! j = Some (EvEraseFunction 1 G) -> (i < j)%nat.
Proof.
  destruct (extractChunksFromModule_phases [mkChunk 1 1; mkChunk 3 3] 0%nat
              (initial exampleModule) 1%nat
              (extractChunksFromModule [mkChunk 1 1; mkChunk 3 3] 0%nat
                 (initial exampleModule)).2)
    as (x & keep & rem & ids & events & _ & _ & _ & _ & HT & _ & Hord & _
        & _).
  - vm_compute. reflexivity.
  - exists events. split; [exact HT|exact Hord].
Defined.

Lemma extractChunksFromModule_sweep_witness :
  exists x',
    extractChunks [mkChunk 1 3] exampleModule = Some x'
    /\ (forall I, I ∈ allInstructions x' -> unresolved I = false)
    /\ x' ≠ exampleModule.
Proof.
  destruct (extractChunksFromModule_sweep [mkChunk 1 3] 0%nat
              (initial exampleModule) 1%nat
              (extractChunksFromModule [mkChunk 1 3] 0%nat
                 (initial exampleModule)).2 exampleModule)
    as (x' & keep & ids & Hx' & _ & _ & Hres & _ & _ & Hne).
  - vm_compute. reflexivity.
  - reflexivity.
  - exists x'. split; [|split; [exact Hres|]].
    + unfold extractChunks.
      replace (extractChunksFromModule [mkChunk 1 3] 0%nat
                 (initial exampleModule))
        with (Some 1%nat,
              (extractChunksFromModule [mkChunk 1 3] 0%nat
                 (initial exampleModule)).2)
        by (vm_compute; reflexivity).
      exact Hx'.
    + apply Hne. exists (CallInst 3 (VOther 7) []). split; [|done].
      vm_compute. do 2 right. by left.
Defined.

Lemma getTargetCount_stable_witness :
  (getTargetCount 0%nat (initial exampleModule)).1 = Some 3
  /\ Heap (getTargetCount 0%nat (initial exampleModule)).2 = [exampleModule]
  /\ (getTargetCount 0%nat (getTargetCount 0%nat (initial exampleModule)).2).1
     = (getTargetCount 0%nat (initial exampleModule)).1.
Proof.
  exact (getTargetCount_stable 0%nat (initial exampleModule) exampleModule
           eq_refl).
Defined.

(** ** Chunk vectors that end before the last defined function *)

(** C2. With an empty [ChunksToKeep] and a module with one defined
    function, the first loop reads [ChunksToKeep[0]] outside the vector:
    no module is returned. *)
Theorem extractChunksFromModule_no_chunks :
  (extractChunksFromModule [] 0%nat
     (initial [ {| Name := "f"; Blocks := body 1 |} ])).1 = None
  /\ extractChunks [] [ {| Name := "f"; Blocks := body 1 |} ] = None.
Proof. split; vm_compute; reflexivity. Qed.

(** C1. With the chunk [1, 1] kept and a module with two defined
    functions, the cursor moves past the only chunk at the first function
    and the second function reads [ChunksToKeep[1]] outside the vector: no
    module is returned, where the module holding [f] alone is expected. *)
Theorem extractChunksFromModule_first_of_two :
  (extractChunksFromModule [mkChunk 1 1] 0%nat
     (initial [ {| Name := "f"; Blocks := body 1 |};
                {| Name := "g"; Blocks := body 2 |} ])).1 = None
  /\ keepLoop [mkChunk 1 1] [ {| Name := "f"; Blocks := body 1 |} ]
       (∅, 0%nat, 1) = Some ({["f"%string]}, 1%nat, 2).
Proof. split; vm_compute; reflexivity. Qed.

(** C4. With the chunk [1, 2] kept, the chunk [3, 3] left out, and a module
    with three defined functions, the third function reads
    [ChunksToKeep[1]] outside the vector: no candidate with fewer target
    units is returned. *)
Theorem extractChunksFromModule_drop_last_chunk :
  extractChunks [mkChunk 1 2]
    [ {| Name := "f"; Blocks := body 1 |};
      {| Name := "g"; Blocks := body 2 |};
      {| Name := "h"; Blocks := body 3 |} ] = None
  /\ targetCount [ {| Name := "f"; Blocks := body 1 |};
                    {| Name := "g"; Blocks := body 2 |};
                    {| Name := "h"; Blocks := body 3 |} ] = Some 3.
Proof. split; vm_compute; reflexivity. Qed.

(** ** The bisection procedure halts *)

(** *** The chunks *)

Lemma computeChunks_lookup N K i :
  (i < K)%nat ->
  computeChunks N K !! i
  = Some {| begin := Z.of_nat (i * N / K) + 1;
            end_ := Z.of_nat ((i + 1) * N / K) |}.
Proof.
  intros Hi. unfold computeChunks.
  by rewrite list_lookup_fmap, lookup_seq_lt.
Qed.

Lemma computeChunks_length N K : length (computeChunks N K) = K.
Proof. unfold computeChunks. by rewrite length_fmap, length_seq. Qed.

Lemma div_step N K i :
  (1 <= K <= N)%nat -> (i * N / K + 1 <= (i + 1) * N / K)%nat.
Proof.
  intros HK.
  replace (i * N / K + 1)%nat with ((i * N + 1 * K) / K)%nat
    by (rewrite Nat.div_add by lia; lia).
  apply Nat.Div0.div_le_mono. lia.
Qed.

Lemma div_mono N K i j :
  (i <= j)%nat -> (i * N / K <= j * N / K)%nat.
Proof. intros Hij. apply Nat.Div0.div_le_mono. nia. Qed.

Lemma covered_false cs n :
  (forall c, c ∈ cs -> inChunk c n = false) -> covered cs n = false.
Proof.
  induction cs as [|c cs IH]; intros Hc; [done|].
  rewrite covered_cons, (Hc c) by by left.
  apply IH. intros c' Hc'. apply Hc. by right.
Qed.

(** The first unit of a chunk lies in no other chunk of the partition. *)
Lemma computeChunks_dropped N K i :
  (1 <= K <= N)%nat -> (i < K)%nat ->
  (1 <= i * N / K + 1 <= N)%nat
  /\ covered (delete i (computeChunks N K)) (Z.of_nat (i * N / K + 1)) = false.
Proof.
  intros HK Hi. split.
  - split; [lia|]. pose proof (div_step N K i HK) as Hs.
    pose proof (div_mono N K (i + 1) K ltac:(lia)) as Hm.
    replace (K * N / K)%nat with N in Hm
      by (rewrite Nat.mul_comm, Nat.div_mul; lia).
    clear -Hs Hm. generalize dependent ((i + 1) * N / K)%nat.
    generalize (i * N / K)%nat. lia.
  - apply covered_false. intros c Hc.
    apply list_elem_of_lookup in Hc as [j Hj].
    assert (exists j', j' ≠ i /\ (j' < K)%nat
                       /\ computeChunks N K !! j' = Some c)
      as (j' & Hne & Hlt & Hj').
    { destruct (decide (j < i)%nat).
      - rewrite list_lookup_delete_lt in Hj by done. exists j.
        split; [lia|]. split; [|done].
        apply lookup_lt_Some in Hj. by rewrite computeChunks_length in Hj.
      - rewrite list_lookup_delete_ge in Hj by lia. exists (S j).
        split; [lia|]. split; [|done].
        apply lookup_lt_Some in Hj. by rewrite computeChunks_length in Hj. }
    rewrite computeChunks_lookup in Hj' by done. injection Hj' as <-.
    unfold inChunk. cbn [begin end_]. apply andb_false_iff.
    destruct (decide (j' < i)%nat).
    + right. pose proof (div_mono N K (j' + 1) i ltac:(lia)) as Hm.
      apply Z.leb_gt. clear -Hm.
      generalize dependent ((j' + 1) * N / K)%nat.
      generalize (i * N / K)%nat. lia.
    + left. pose proof (div_mono N K (i + 1) j' ltac:(lia)) as Hm.
      pose proof (div_step N K i HK) as Hs.
      apply Z.leb_gt. clear -Hm Hs.
      generalize dependent ((i + 1) * N / K)%nat.
      generalize (i * N / K)%nat (j' * N / K)%nat. lia.
Qed.

Section Termination.
Context {Artifact : Type} {P : Pass Artifact} {HP : Shrinking P}.
Variable test : Artifact -> bool.

Lemma tryChunks_success best chunks todo candidate n :
  tryChunks test best chunks todo = (Some candidate, n) ->
  exists i, i ∈ todo /\ candidate = reduce best (delete i chunks).
Proof.
  revert n. induction todo as [|i todo IH]; intros n R; [done|].
  cbn [tryChunks] in R.
  destruct (test (reduce best (delete i chunks))) eqn:ET.
  - injection R as <- <-. exists i. split; [by left|done].
  - destruct (tryChunks test best chunks todo) as [r k] eqn:ER.
    cbn in R. injection R as -> <-.
    destruct (IH k eq_refl) as (j & Hj & ->).
    exists j. split; [by right|done].
Qed.

(** A success of step 3b has fewer targets. *)
Lemma tryChunks_shrinks best K candidate n :
  (1 <= K <= countTargets best)%nat ->
  tryChunks test best (computeChunks (countTargets best) K)
    (seq 0 (length (computeChunks (countTargets best) K)))
  = (Some candidate, n) ->
  (countTargets candidate < countTargets best)%nat.
Proof.
  intros HK R. apply tryChunks_success in R as (i & Hi & ->).
  rewrite computeChunks_length in Hi. apply elem_of_seq in Hi.
  destruct (computeChunks_dropped (countTargets best) K i HK ltac:(lia))
    as [Hrange Hcov].
  by eapply shrinks.
Qed.

Lemma bisect_enough : forall fuel best K calls,
  (1 <= K)%nat -> (enough (countTargets best) K < fuel)%nat ->
  exists result calls',
    bisect test fuel best K calls = Some (result, calls')
    /\ (countTargets result <= countTargets best)%nat.
Proof.
  induction fuel as [|fuel IH]; intros best K calls HK Hfuel; [lia|].
  cbn [bisect]. destruct (K <=? countTargets best)%nat eqn:EK.
  - apply Nat.leb_le in EK.
    destruct (tryChunks test best _ _) as [[candidate|] n] eqn:ET.
    + pose proof (tryChunks_shrinks best K candidate n ltac:(lia) ET) as Hlt.
      destruct (IH candidate 2%nat (calls + n)%nat) as (r & c & R & Hle).
      * lia.
      * unfold enough in *. nia.
      * exists r, c. split; [done|lia].
    + destruct (IH best (2 * K)%nat (calls + n)%nat) as (r & c & R & Hle).
      * lia.
      * unfold enough in *. lia.
      * by exists r, c.
  - exists best, calls. split; [done|lia].
Qed.

Lemma bisect_more_fuel : forall fuel best K calls r,
  bisect test fuel best K calls = Some r ->
  bisect test (S fuel) best K calls = Some r.
Proof.
  induction fuel as [|fuel IH]; intros best K calls r R; [done|].
  cbn [bisect] in R. cbn [bisect].
  destruct (K <=? countTargets best)%nat; [|done].
  destruct (tryChunks test best _ _) as [[candidate|] n]; by apply IH.
Qed.

(** C5, amended.  For every pass that keeps the contract of [reduce] (a
    candidate that leaves out a target unit has fewer target units) and
    every oracle, the procedure of section 4.4 halts: with enough fuel it
    returns a result after a finite number of oracle calls, more fuel
    does not change that result, and the result has no more target
    units than the input. *)
Theorem bisection_terminates (best : Artifact) :
  exists fuel result calls,
    (forall more, runPass test (more + fuel) best = Some (result, calls))
    /\ (countTargets result <= countTargets best)%nat.
Proof.
  unfold runPass. destruct (countTargets best =? 0)%nat eqn:E0.
  - exists 0%nat, best, 0%nat. split; [done|lia].
  - destruct (bisect_enough (S (enough (countTargets best) 2)) best 2%nat
                0%nat) as (r & c & R & Hle); [lia..|].
    exists (S (enough (countTargets best) 2)), r, c. split; [|done].
    induction more as [|more IH]; [done|].
    by apply bisect_more_fuel.
Qed.

End Termination.

Lemma keepUnits_length kept : forall a n,
  (length (keepUnits kept a n) <= length a)%nat.
Proof.
  induction a as [|u a IH]; intros n; [done|].
  cbn [keepUnits]. pose proof (IH (n + 1)).
  destruct (covered kept n); cbn [length]; lia.
Qed.

Lemma keepUnits_shrinks kept : forall a n k,
  n <= k < n + Z.of_nat (length a) -> covered kept k = false ->
  (length (keepUnits kept a n) < length a)%nat.
Proof.
  induction a as [|u a IH]; intros n k Hk Hc; [cbn in Hk; lia|].
  cbn [keepUnits]. destruct (decide (k = n)) as [->|Hne].
  - rewrite Hc. pose proof (keepUnits_length kept a (n + 1)).
    cbn [length]. lia.
  - pose proof (IH (n + 1) k ltac:(cbn [length] in Hk; lia) Hc).
    destruct (covered kept n); cbn [length]; lia.
Qed.

#[local] Instance listPass_shrinking : Shrinking listPass.
Proof.
  intros a kept n Hn Hc. cbn [countTargets reduce listPass] in *.
  apply (keepUnits_shrinks kept a 1 (Z.of_nat n)); [lia|done].
Qed.

Lemma bisection_terminates_witness :
  exists fuel result calls,
    (forall more,
       runPass wantsThree (more + fuel) [1; 2; 3; 4; 5]%nat
       = Some (result, calls))
    /\ (length result <= 5)%nat.
Proof.
  exact (bisection_terminates (HP := listPass_shrinking) wantsThree
           [1; 2; 3; 4; 5]%nat).
Defined.

(** *** A pass that breaks the contract *)

Lemma identityPass_bisect (fuel : nat) : forall calls,
  bisect (P := identityPass) (fun _ => true) fuel 2%nat 2%nat calls = None.
Proof.
  induction fuel as [|fuel IH]; intros calls; [done|].
  change (bisect (P := identityPass) (fun _ => true) (S fuel) 2%nat 2%nat
            calls)
    with (bisect (P := identityPass) (fun _ => true) fuel 2%nat 2%nat
            (calls + 1)%nat).
  apply IH.
Qed.

(** C5, as stated.  The claim does not hold for every pass: the pass
    whose [reduce] returns the artifact itself breaks the contract of
    [reduce], every chunk removal succeeds under the oracle that accepts
    everything and none lowers the count of target units, so on an
    artifact with two target units the procedure returns no result,
    whatever the fuel. *)
Lemma bisection_identity_pass_never_halts :
  ~ Shrinking identityPass
  /\ forall fuel,
       runPass (P := identityPass) (fun _ => true) fuel 2%nat = None.
Proof.
  split.
  - intros HS. pose proof (HS 1%nat [] 1%nat) as H1.
    cbn in H1. lia.
  - intros fuel. apply identityPass_bisect.
Qed.

Example scenario_B :
  exists calls, runPass wantsThree 40 [1; 2; 3; 4; 5]%nat = Some ([3%nat], calls).
Proof. eexists. vm_compute. reflexivity. Qed.

(** ** The driver *)

Lemma initializeTmpDirectory_ok (E : Collaborators) CWD :
  current_path E = inr CWD ->
  exists tmp,
    initializeTmpDirectory E = (tmp, inr (path_append E CWD "tmp"))
    /\ forallb (fun a => negb (isCopy a)) tmp = true.
Proof.
  intros Ecwd. unfold initializeTmpDirectory. rewrite Ecwd.
  destruct (create_directory E _); eexists; split; reflexivity.
Qed.

Lemma forallb_fmap_Errs (E : Collaborators) (p : Action E -> bool)
    (msgs : list string) :
  (forall s, p (Errs s) = true) -> forallb p (Errs <$> msgs) = true.
Proof.
  intros Hp. induction msgs as [|m msgs IH]; [done|].
  rewrite fmap_cons. cbn [forallb]. by rewrite Hp, IH.
Qed.

Lemma parseInputFile_no_copy (E : Collaborators) Filename :
  forallb (fun a => negb (isCopy a)) (parseInputFile E Filename).1 = true.
Proof.
  unfold parseInputFile. destruct (parseIRFile E Filename) as [R|]; [|done].
  cbv zeta. destruct (verifyModule E R).2; cbn [fst].
  - rewrite forallb_app, forallb_fmap_Errs; done.
  - by apply forallb_fmap_Errs.
Qed.

(** The two ways [main] ends once the passes have run: nothing is copied
    before, and the test on the file name of the reduced path decides
    between the two reports. *)
Lemma main_report (E : Collaborators) (o : Options) CWD :
  current_path E = inr CWD ->
  let Tester := testerOf E o (path_append E CWD "tmp") in
  let Reduced := getReducedFilepath E (runDeltaPasses E Tester) in
  exists before,
    forallb (fun a => negb (isCopy a)) before = true
    /\ main E o =
       if String.eqb (path_filename E Reduced) (InputFilename o)
       then (before
               ++ [RunDeltaPasses Tester;
                   Outs (newline +:+ "Couldnt reduce input :/" +:+ newline)],
             0)
       else (before
               ++ [RunDeltaPasses Tester;
                   CopyFile Reduced (outputOf o);
                   Outs (newline +:+ "Done reducing! Reduced IR to file: "
                         +:+ outputOf o +:+ newline)],
             0).
Proof.
  intros Ecwd. cbv zeta.
  destruct (initializeTmpDirectory_ok E CWD Ecwd) as (tmp & Etmp & Htmp).
  unfold main, testerOf, outputOf. rewrite Etmp.
  pose proof (parseInputFile_no_copy E (InputFilename o)) as Hp.
  destruct (parseInputFile E (InputFilename o)) as [parsing prog].
  cbn [fst snd] in *.
  exists (parsing ++ tmp). split.
  - by rewrite forallb_app, Hp, Htmp.
  - destruct (String.eqb _ _); by rewrite <- !app_assoc.
Qed.

(** C8. [main] does not stop when the input fails to parse or to verify:
    [parseInputFile] returns null, and (unless the current directory
    cannot be read) the runner is given the null program and the delta
    passes are started on it; the process then ends with exit code 0. *)
Theorem main_runs_passes_on_null_program (E : Collaborators) (o : Options)
    CWD :
  current_path E = inr CWD ->
  (parseInputFile E (InputFilename o)).2 = None ->
  RunDeltaPasses
    (setProgram E None
       (newTestRunner E (TestFilename o) (TestArguments o) (InputFilename o)
          (path_append E CWD "tmp"))) ∈ (main E o).1
  /\ (main E o).2 = 0.
Proof.
  intros Ecwd Hnull.
  destruct (main_report E o CWD Ecwd) as (before & _ & R).
  cbv zeta in R. unfold testerOf in R. rewrite Hnull in R. rewrite R.
  destruct (String.eqb _ _); cbn [fst snd]; (split; [|done]);
    rewrite elem_of_app; right; by left.
Qed.

Lemma main_runs_passes_on_null_program_witness :
  RunDeltaPasses (E := exampleCollaborators) (None, "dir/a.ll"%string)
    ∈ (main exampleCollaborators exampleOptions).1
  /\ (main exampleCollaborators exampleOptions).2 = 0.
Proof.
  apply (main_runs_passes_on_null_program exampleCollaborators
           exampleOptions "/work"%string); reflexivity.
Defined.

(** C9. When the passes leave the reduced filepath at the input path and
    the input was named with a directory (so that its file name component
    differs from it), [main] copies the unreduced input to the output path
    and reports a finished reduction; it does not report that the input
    could not be reduced. *)
Theorem main_copies_unreduced_input (E : Collaborators) (o : Options) CWD :
  current_path E = inr CWD ->
  let Tester := testerOf E o (path_append E CWD "tmp") in
  getReducedFilepath E (runDeltaPasses E Tester) = InputFilename o ->
  path_filename E (InputFilename o) ≠ InputFilename o ->
  exists before,
    main E o
    = (before
         ++ [RunDeltaPasses Tester;
             CopyFile (InputFilename o) (outputOf o);
             Outs (newline +:+ "Done reducing! Reduced IR to file: "
                   +:+ outputOf o +:+ newline)],
       0).
Proof.
  intros Ecwd Tester Hsame Hdir.
  destruct (main_report E o CWD Ecwd) as (before & _ & R).
  cbv zeta in R. fold Tester in R. rewrite Hsame in R.
  apply String.eqb_neq in Hdir. rewrite Hdir in R. by exists before.
Qed.

Lemma main_copies_unreduced_input_witness :
  exists before,
    main exampleCollaborators exampleOptions
    = (before
         ++ [RunDeltaPasses (E := exampleCollaborators)
               (None, "dir/a.ll"%string);
             CopyFile "dir/a.ll" "reduced.ll";
             Outs (newline +:+ "Done reducing! Reduced IR to file: "
                   +:+ "reduced.ll" +:+ newline)],
       0).
Proof.
  apply (main_copies_unreduced_input exampleCollaborators exampleOptions
           "/work"%string); [reflexivity | reflexivity | discriminate].
Defined.

(** * Further properties of [RemoveFunctions] *)

(** ** When the call returns *)

Lemma ascendingFrom_last lo c cs cl :
  ascendingFrom lo (c :: cs) = true -> last (c :: cs) = Some cl ->
  end_ c <= end_ cl.
Proof.
  revert lo c. induction cs as [|c' cs IH]; intros lo c Ha Hl.
  - cbn in Hl. injection Hl as <-. lia.
  - rewrite last_cons_cons in Hl. cbn [ascendingFrom] in Ha.
    apply andb_prop in Ha as [Ha Ha3]. apply andb_prop in Ha as [Ha1 Ha2].
    pose proof (IH (end_ c) c' Ha3 Hl) as Hle.
    cbn [ascendingFrom] in Ha3. apply andb_prop in Ha3 as [Hb _].
    apply andb_prop in Hb as [Hb1 Hb2]. lia.
Qed.

(** The first loop reads outside the vector when the last chunk ends
    before the last defined function. *)
Lemma keepLoop_short : forall Fs pre rest keep fc lo,
  ascendingFrom lo rest = true ->
  (forall c, head rest = Some c -> fc <= end_ c) ->
  (0 < numDefined Fs)%nat ->
  (forall c, last rest = Some c ->
     end_ c < fc + Z.of_nat (numDefined Fs) - 1) ->
  keepLoop (pre ++ rest) Fs (keep, length pre, fc) = None.
Proof.
  induction Fs as [|F Fs IH]; intros pre rest keep fc lo Hasc Hhead Hpos Hlast.
  - cbn in Hpos. lia.
  - cbn [keepLoop]. unfold keepStep. rewrite numDefined_cons in Hpos, Hlast.
    destruct (isDeclaration F) eqn:ED; [by apply (IH pre rest keep fc lo)|].
    unfold chunkAt. destruct rest as [|c rest].
    { rewrite app_nil_r, lookup_ge_None_2 by lia. done. }
    rewrite list_lookup_middle by done.
    pose proof (Hhead c eq_refl) as Hc.
    assert (exists cl, last (c :: rest) = Some cl) as [cl Hcl].
    { destruct (last (c :: rest)) as [cl|] eqn:E; [by exists cl|].
      by apply last_None in E. }
    pose proof (ascendingFrom_last lo c rest cl Hasc Hcl) as Hge.
    pose proof (Hlast cl Hcl) as Hlt.
    cbn [ascendingFrom] in Hasc.
    apply andb_prop in Hasc as [Hasc Ha3]. apply andb_prop in Hasc as [Ha1 Ha2].
    destruct (end_ c <=? fc) eqn:Eend.
    + replace (S (length pre)) with (length (pre ++ [c]))
        by (rewrite length_app; cbn; lia).
      replace (pre ++ c :: rest) with ((pre ++ [c]) ++ rest)
        by by rewrite <- app_assoc.
      apply (IH (pre ++ [c]) rest _ (fc + 1) (end_ c)); [done| |lia|].
      * intros c' Hc'. destruct rest as [|c'' rest]; [done|].
        injection Hc' as ->. cbn [ascendingFrom] in Ha3.
        apply andb_prop in Ha3 as [Hx _]. apply andb_prop in Hx as [Hx Hy].
        lia.
      * intros c' Hc'. destruct rest as [|c'' rest]; [done|].
        rewrite last_cons_cons in Hcl. rewrite Hc' in Hcl.
        injection Hcl as ->. lia.
    + apply (IH pre (c :: rest) _ (fc + 1) lo).
      * cbn [ascendingFrom]. by rewrite Ha1, Ha2, Ha3.
      * intros c' [= <-]. lia.
      * lia.
      * intros c' Hc'. rewrite Hc' in Hcl. injection Hcl as ->. lia.
Qed.

(** X1. For ascending chunks, [extractChunksFromModule] returns a module
    exactly when the module passed has no defined function or the last
    chunk ends at or after the index of the last defined function;
    otherwise the first loop reads outside [ChunksToKeep]. *)
Theorem extractChunks_returns_iff ChunksToKeep (x : Module) :
  ascendingFrom 0 ChunksToKeep = true ->
  is_Some (extractChunks ChunksToKeep x) <-> reachesEnd ChunksToKeep x.
Proof.
  intros Hasc. rewrite extractChunks_eq. split.
  - intros Hsome Hpos.
    destruct (last ChunksToKeep) as [cl|] eqn:Hcl.
    + destruct (decide (Z.of_nat (numDefined x) <= end_ cl)) as [Hle|Hgt];
        [by exists cl|].
      exfalso.
      rewrite (keepLoop_short x [] ChunksToKeep ∅ 1 0) in Hsome;
        [by destruct Hsome|done| |done|].
      * intros c Hc. destruct ChunksToKeep as [|c' cs]; [done|].
        injection Hc as ->. cbn [ascendingFrom] in Hasc.
        apply andb_prop in Hasc as [Hx _]. apply andb_prop in Hx as [Hx Hy].
        lia.
      * intros c Hc. rewrite Hcl in Hc. injection Hc as <-. lia.
    + exfalso. apply last_None in Hcl. subst ChunksToKeep.
      rewrite keepLoop_no_chunks in Hsome by done. by destruct Hsome.
  - intros Hend.
    pose proof (keptSet_ascending ChunksToKeep x Hasc Hend) as HK.
    unfold keptSet in HK.
    destruct (keepLoop ChunksToKeep x (∅, 0%nat, 1)); [by eexists|done].
Qed.

Lemma exampleModule_NoDup : NoDup (Name <$> exampleModule).
Proof. apply (bool_decide_unpack _). vm_compute. exact I. Qed.

Lemma extractChunks_returns_iff_witness :
  is_Some (extractChunks [mkChunk 1 1; mkChunk 3 3] exampleModule)
  <-> reachesEnd [mkChunk 1 1; mkChunk 3 3] exampleModule.
Proof.
  apply (extractChunks_returns_iff [mkChunk 1 1; mkChunk 3 3] exampleModule).
  reflexivity.
Defined.

(** ** What the module returned holds *)

Lemma targetCount_eq (x : Module) :
  targetCount x = Some (Z.of_nat (numDefined x)).
Proof.
  unfold targetCount, initial.
  by rewrite (getTargetCount_run 0%nat [x] [] x eq_refl).
Qed.

Lemma definedNames_shape (x : Module) :
  definedNames x = fst <$> filter (fun p => p.2 = false) (shape <$> x).
Proof.
  unfold definedNames. induction x as [|F x IH]; [done|].
  rewrite fmap_cons, !filter_cons. cbn [shape snd].
  destruct (decide (isDeclaration F = false)); [|done].
  rewrite !fmap_cons. cbn [fst]. by rewrite IH.
Qed.

Lemma expected_defined kept : forall Fs fc,
  fst <$> filter (fun p => p.2 = false) (expected kept Fs fc)
  = snd <$> filter (fun p => covered kept p.1 = true) (numbered Fs fc).
Proof.
  induction Fs as [|F Fs IH]; intros fc; [done|].
  cbn [expected numbered]. destruct (isDeclaration F) eqn:ED.
  - rewrite filter_cons_False by (cbn [shape snd]; congruence). apply IH.
  - destruct (covered kept fc) eqn:EC.
    + rewrite (filter_cons_True _ (fc, Name F)) by done.
      rewrite filter_cons_True by done.
      rewrite !fmap_cons. cbn [shape fst snd]. by rewrite IH.
    + rewrite (filter_cons_False _ (fc, Name F)) by (cbn [fst]; congruence).
      apply IH.
Qed.

Lemma expected_declared kept : forall Fs fc,
  filter (fun p => p.2 = true) (expected kept Fs fc)
  = filter (fun p => p.2 = true) (shape <$> Fs).
Proof.
  induction Fs as [|F Fs IH]; intros fc; [done|].
  cbn [expected]. rewrite fmap_cons.
  destruct (isDeclaration F) eqn:ED.
  - rewrite !filter_cons_True by done. by rewrite IH.
  - rewrite (filter_cons_False _ (shape F)) by (cbn [shape snd]; congruence).
    destruct (covered kept fc); [|apply IH].
    rewrite filter_cons_False by (cbn [shape snd]; congruence). apply IH.
Qed.

(** X2. On ascending chunks that reach the last defined function, and a
    module with unique function names, the module returned holds, in the
    order of the module passed, every declaration and exactly the defined
    functions whose index (counting the defined functions from 1) lies
    inside a chunk; no function changes between declared and defined. *)
Theorem extractChunks_keeps_covered ChunksToKeep (x : Module) :
  ascendingFrom 0 ChunksToKeep = true ->
  reachesEnd ChunksToKeep x ->
  NoDup (Name <$> x) ->
  exists x',
    extractChunks ChunksToKeep x = Some x'
    /\ shape <$> x' = expected ChunksToKeep x 1
    /\ definedNames x'
       = snd <$> filter (fun p => covered ChunksToKeep p.1 = true)
                   (numbered x 1)
    /\ filter (fun p => p.2 = true) (shape <$> x')
       = filter (fun p => p.2 = true) (shape <$> x).
Proof.
  intros Hasc Hend Hnd.
  destruct (extractChunks_ascending ChunksToKeep x Hasc Hend Hnd)
    as (x' & R & Hshape).
  exists x'. split; [done|]. split; [done|]. split.
  - by rewrite definedNames_shape, Hshape, expected_defined.
  - by rewrite Hshape, expected_declared.
Qed.

Lemma extractChunks_keeps_covered_witness :
  exists x',
    extractChunks [mkChunk 1 1; mkChunk 3 3] exampleModule = Some x'
    /\ definedNames x' = ["f"; "h"]%string.
Proof.
  destruct (extractChunks_keeps_covered [mkChunk 1 1; mkChunk 3 3]
              exampleModule) as (x' & R & _ & Hdef & _).
  - reflexivity.
  - intros _. exists (mkChunk 3 3). split; [reflexivity|]. vm_compute.
    discriminate.
  - exact exampleModule_NoDup.
  - exists x'. split; [exact R|]. rewrite Hdef. vm_compute. reflexivity.
Defined.

(** X3. Whenever [extractChunksFromModule] returns on a module with
    unique function names and some defined function has its index outside
    every chunk, [getTargetCount] is smaller on the module returned than
    on the module passed.  The chunks need not be ascending. *)
Theorem extractChunks_lowers_targetCount ChunksToKeep (x x' : Module) k :
  extractChunks ChunksToKeep x = Some x' ->
  NoDup (Name <$> x) ->
  1 <= k <= Z.of_nat (numDefined x) ->
  covered ChunksToKeep k = false ->
  exists n n',
    targetCount x = Some n /\ targetCount x' = Some n' /\ n' < n.
Proof.
  intros R Hnd Hk Hc.
  pose proof (extractChunks_fewer ChunksToKeep x x' k R Hnd Hk Hc) as Hlt.
  exists (Z.of_nat (numDefined x)), (Z.of_nat (numDefined x')).
  rewrite !targetCount_eq. split; [done|]. split; [done|]. lia.
Qed.

Lemma extractChunks_lowers_targetCount_witness :
  exists x' n n',
    extractChunks [mkChunk 1 1; mkChunk 3 3] exampleModule = Some x'
    /\ targetCount exampleModule = Some n /\ targetCount x' = Some n'
    /\ n' < n.
Proof.
  destruct (extractChunks [mkChunk 1 1; mkChunk 3 3] exampleModule)
    as [x'|] eqn:R; [|vm_compute in R; discriminate R].
  destruct (extractChunks_lowers_targetCount [mkChunk 1 1; mkChunk 3 3]
              exampleModule x' 2 R exampleModule_NoDup)
    as (n & n' & Hn & Hn' & Hlt).
  - vm_compute. split; discriminate.
  - reflexivity.
  - by exists x', n, n'.
Defined.

(** ** Modules that are returned as they are *)

Lemma inChunks_all kept : forall Fs fc F,
  (forall k, fc <= k < fc + Z.of_nat (numDefined Fs) -> covered kept k = true) ->
  F ∈ Fs -> isDeclaration F = false -> Name F ∈ inChunks kept Fs fc.
Proof.
  induction Fs as [|G Fs IH]; intros fc F Hcov HF HD.
  - by apply elem_of_nil in HF.
  - cbn [inChunks]. rewrite numDefined_cons in Hcov.
    destruct (isDeclaration G) eqn:EG.
    + apply elem_of_cons in HF as [->|HF]; [congruence|]. by apply IH.
    + rewrite (Hcov fc) by lia.
      apply elem_of_cons in HF as [->|HF]; [by left|].
      right. apply IH; [|done..]. intros k Hk. apply Hcov. lia.
Qed.

Lemma toRemove_nil keep (x : Module) :
  (forall F, F ∈ x -> isDeclaration F = false -> Name F ∈ keep) ->
  toRemove keep x = [].
Proof.
  induction x as [|F x IH]; intros Hall; [done|].
  rewrite toRemove_cons.
  assert (outOfChunk keep F = false) as ->.
  { unfold outOfChunk. destruct (isDeclaration F) eqn:ED; [done|]. cbn.
    apply negb_false_iff, bool_decide_eq_true. apply Hall; [by left|done]. }
  apply IH. intros G HG. apply Hall. by right.
Qed.

Lemma unresolvedCalls_nil (x : Module) :
  (forall I, I ∈ allInstructions x -> unresolved I = false) ->
  unresolvedCalls x = [].
Proof.
  intros Hres. rewrite unresolvedCalls_eq.
  assert (filter (fun I => unresolved I = true) (allInstructions x) = [])
    as ->; [|done].
  induction (allInstructions x) as [|I l IH]; [done|].
  rewrite filter_cons_False by (rewrite (Hres I) by (by left); done).
  apply IH. intros J HJ. apply Hres. by right.
Qed.

(** With every defined function inside a chunk and no unresolved call, the
    module is returned as it is. *)
Lemma extractChunks_unchanged ChunksToKeep (x : Module) :
  ascendingFrom 0 ChunksToKeep = true ->
  reachesEnd ChunksToKeep x ->
  coversAll ChunksToKeep x ->
  (forall I, I ∈ allInstructions x -> unresolved I = false) ->
  extractChunks ChunksToKeep x = Some x.
Proof.
  intros Hasc Hend Hall Hres.
  pose proof (keptSet_ascending ChunksToKeep x Hasc Hend) as HK.
  unfold keptSet in HK. rewrite extractChunks_eq.
  destruct (keepLoop ChunksToKeep x (∅, 0%nat, 1)) as [st|]; [|done].
  injection HK as HK. f_equal.
  assert (afterErase st.1.1 x = x) as ->.
  { unfold afterErase. rewrite toRemove_nil; [done|].
    intros F HF HD. rewrite HK, elem_of_list_to_set.
    apply inChunks_all; [|done..]. intros k Hk. apply Hall. lia. }
  unfold afterSweep. by rewrite unresolvedCalls_nil.
Qed.

(** X4. With ascending chunks that hold every defined function, the
    module is returned unchanged exactly when it holds no call whose
    callee is not a Function. *)
Theorem extractChunks_unchanged_iff ChunksToKeep (x : Module) :
  ascendingFrom 0 ChunksToKeep = true ->
  reachesEnd ChunksToKeep x ->
  coversAll ChunksToKeep x ->
  extractChunks ChunksToKeep x = Some x
  <-> forall I, I ∈ allInstructions x -> unresolved I = false.
Proof.
  intros Hasc Hend Hall. split.
  - intros R I HI. rewrite extractChunks_eq in R.
    destruct (keepLoop ChunksToKeep x (∅, 0%nat, 1)) as [st|]; [|done].
    injection R as R. rewrite <- R in HI. by apply afterSweep_resolved in HI.
  - by apply extractChunks_unchanged.
Qed.

Lemma extractChunks_unchanged_iff_witness :
  extractChunks [mkChunk 1 1; mkChunk 2 2] resolvedModule = Some resolvedModule
  <-> forall I, I ∈ allInstructions resolvedModule -> unresolved I = false.
Proof.
  apply (extractChunks_unchanged_iff [mkChunk 1 1; mkChunk 2 2] resolvedModule).
  - reflexivity.
  - intros _. exists (mkChunk 2 2). split; [reflexivity|]. vm_compute.
    discriminate.
  - intros k Hk. change (Z.of_nat (numDefined resolvedModule)) with 2 in Hk.
    assert (k = 1 \/ k = 2) as [->| ->] by lia; reflexivity.
Defined.

(** X5. Running the pass again on a module it returned, with the one
    chunk that holds every defined function, returns that module
    unchanged: a second run finds nothing left to patch or to sweep. *)
Theorem extractChunks_idempotent ChunksToKeep (x x' : Module) :
  extractChunks ChunksToKeep x = Some x' ->
  extractChunks [mkChunk 1 (Z.of_nat (numDefined x'))] x' = Some x'.
Proof.
  intros R.
  assert (Hres : forall I, I ∈ allInstructions x' -> unresolved I = false).
  { rewrite extractChunks_eq in R.
    destruct (keepLoop ChunksToKeep x (∅, 0%nat, 1)) as [st|]; [|done].
    injection R as <-. apply afterSweep_resolved. }
  destruct (decide (numDefined x' = 0%nat)) as [Hz|Hnz].
  - by apply extractChunks_no_targets.
  - apply extractChunks_unchanged; [| | |done].
    + cbn. apply andb_true_iff. split; [|done]. apply Z.leb_le. lia.
    + intros _. eexists. split; [done|]. cbn. lia.
    + intros k Hk. unfold covered, inChunk. cbn.
      rewrite orb_false_r. apply andb_true_iff. split; apply Z.leb_le; lia.
Qed.

Lemma extractChunks_idempotent_witness :
  exists x',
    extractChunks [mkChunk 1 1; mkChunk 3 3] exampleModule = Some x'
    /\ extractChunks [mkChunk 1 (Z.of_nat (numDefined x'))] x' = Some x'.
Proof.
  destruct (extractChunks [mkChunk 1 1; mkChunk 3 3] exampleModule)
    as [x'|] eqn:R; [|vm_compute in R; discriminate R].
  exists x'. split; [reflexivity|].
  exact (extractChunks_idempotent [mkChunk 1 1; mkChunk 3 3] exampleModule
           x' R).
Defined.

(** X6. A module without defined functions is returned as it is, whatever
    the chunks are, also for an empty chunk vector: nothing is patched and
    no chunk is read. *)
Theorem extractChunks_declarations_only ChunksToKeep (x : Module) :
  (forall F, F ∈ x -> isDeclaration F = true) ->
  extractChunks ChunksToKeep x = Some x /\ targetCount x = Some 0.
Proof.
  intros Hdecl.
  assert (numDefined x = 0%nat) as Hz.
  { induction x as [|F x IH]; [done|]. rewrite numDefined_cons.
    rewrite (Hdecl F) by by left. apply IH. intros G HG. apply Hdecl.
    by right. }
  split; [by apply extractChunks_no_targets|].
  by rewrite targetCount_eq, Hz.
Qed.

Lemma extractChunks_declarations_only_witness :
  extractChunks [] [ {| Name := "ext"; Blocks := [] |} ]
  = Some [ {| Name := "ext"; Blocks := [] |} ]
  /\ targetCount [ {| Name := "ext"; Blocks := [] |} ] = Some 0.
Proof.
  apply (extractChunks_declarations_only [] [ {| Name := "ext"; Blocks := [] |} ]).
  intros F HF. apply list_elem_of_singleton in HF. by subst F.
Defined.

(** ** Chunk vectors with the same coverage *)

Lemma inChunks_ext kept1 kept2 : forall Fs fc,
  (forall k, fc <= k < fc + Z.of_nat (numDefined Fs) ->
     covered kept1 k = covered kept2 k) ->
  inChunks kept1 Fs fc = inChunks kept2 Fs fc.
Proof.
  induction Fs as [|F Fs IH]; intros fc Hcov; [done|].
  cbn [inChunks]. rewrite numDefined_cons in Hcov.
  destruct (isDeclaration F); [by apply IH|].
  rewrite (Hcov fc) by lia.
  rewrite (IH (fc + 1)) by (intros k Hk; apply Hcov; lia). done.
Qed.

(** X7. Only the set of indices that the chunks hold matters: two
    ascending chunk vectors that reach the last defined function and hold
    the same indices (as when adjacent chunks are merged or split) give
    the same module. *)
Theorem extractChunks_same_coverage kept1 kept2 (x : Module) :
  ascendingFrom 0 kept1 = true -> ascendingFrom 0 kept2 = true ->
  reachesEnd kept1 x -> reachesEnd kept2 x ->
  (forall k, 1 <= k <= Z.of_nat (numDefined x) ->
     covered kept1 k = covered kept2 k) ->
  extractChunks kept1 x = extractChunks kept2 x.
Proof.
  intros Ha1 Ha2 He1 He2 Hcov.
  pose proof (keptSet_ascending kept1 x Ha1 He1) as HK1.
  pose proof (keptSet_ascending kept2 x Ha2 He2) as HK2.
  unfold keptSet in HK1, HK2. rewrite !extractChunks_eq.
  destruct (keepLoop kept1 x (∅, 0%nat, 1)) as [st1|]; [|done].
  destruct (keepLoop kept2 x (∅, 0%nat, 1)) as [st2|]; [|done].
  injection HK1 as ->. injection HK2 as ->.
  rewrite (inChunks_ext kept1 kept2 x 1); [done|].
  intros k Hk. apply Hcov. lia.
Qed.

Lemma extractChunks_same_coverage_witness :
  extractChunks [mkChunk 1 2; mkChunk 3 3] exampleModule
  = extractChunks [mkChunk 1 3] exampleModule.
Proof.
  apply (extractChunks_same_coverage [mkChunk 1 2; mkChunk 3 3] [mkChunk 1 3]
           exampleModule).
  - reflexivity.
  - reflexivity.
  - intros _. exists (mkChunk 3 3). split; [reflexivity|]. vm_compute.
    discriminate.
  - intros _. exists (mkChunk 1 3). split; [reflexivity|]. vm_compute.
    discriminate.
  - intros k Hk. change (Z.of_nat (numDefined exampleModule)) with 3 in Hk.
    assert (k = 1 \/ k = 2 \/ k = 3) as [->|[->| ->]] by lia; reflexivity.
Defined.

(** ** What the pass never does *)

Lemma patchedValue_refl v : patchedValue v v.
Proof. destruct v; cbn; auto. Qed.

Lemma patchedValue_replace old v v' :
  patchedValue v v' -> patchedValue v (replaceValue old v').
Proof.
  destruct v; cbn; [| | |done];
    (intros [->| ->]; unfold replaceValue; case_decide; auto).
Qed.

Lemma patchedInstruction_refl I : patchedInstruction I I.
Proof.
  destruct I as [id callee args|id ops]; cbn.
  - split; [done|]. split; [apply patchedValue_refl|].
    apply Forall2_same_length_lookup. split; [done|].
    intros i v v' Hv Hv'. rewrite Hv in Hv'. injection Hv' as <-.
    apply patchedValue_refl.
  - split; [done|]. apply Forall2_same_length_lookup. split; [done|].
    intros i v v' Hv Hv'. rewrite Hv in Hv'. injection Hv' as <-.
    apply patchedValue_refl.
Qed.

Lemma Forall2_patched_replace old (vs vs' : list Value) :
  Forall2 patchedValue vs vs' ->
  Forall2 patchedValue vs (replaceValue old <$> vs').
Proof.
  induction 1 as [|v v' vs vs' Hv Hvs IH]; [constructor|].
  rewrite fmap_cons. constructor; [by apply patchedValue_replace|done].
Qed.

Lemma patchedInstruction_replace old I I' :
  patchedInstruction I I' -> patchedInstruction I (replaceInstruction old I').
Proof.
  destruct I as [id callee args|id ops], I' as [id' callee' args'|id' ops'];
    cbn; try done.
  - intros (-> & Hc & Ha). split; [done|].
    split; [by apply patchedValue_replace|by apply Forall2_patched_replace].
  - intros (-> & Ho). split; [done|]. by apply Forall2_patched_replace.
Qed.

Lemma patchedInstruction_replaceAll olds : forall I I',
  patchedInstruction I I' ->
  patchedInstruction I (replaceAllInstruction olds I').
Proof.
  induction olds as [|old olds IH]; intros I I' HI; [done|].
  cbn [replaceAllInstruction foldl].
  fold (replaceAllInstruction olds (replaceInstruction old I')).
  by apply IH, patchedInstruction_replace.
Qed.

Lemma instId_replaceAllInstruction olds I :
  instId (replaceAllInstruction olds I) = instId I.
Proof.
  revert I. induction olds as [|old olds IH]; intros I; [done|].
  cbn [replaceAllInstruction foldl].
  fold (replaceAllInstruction olds (replaceInstruction old I)).
  rewrite IH. by destruct I.
Qed.

Lemma removeFunctions_filter names : forall x : Module,
  removeFunctions names x = filter (fun F => Name F ∉ names) x.
Proof.
  induction names as [|n names IH]; intros x.
  - cbn. induction x as [|F x IHx]; [done|].
    rewrite filter_cons_True by apply not_elem_of_nil. by f_equal.
  - cbn [removeFunctions foldl].
    fold (removeFunctions names (removeFunction n x)).
    rewrite IH. unfold removeFunction. rewrite list_filter_filter.
    apply list_filter_iff. intros F. rewrite not_elem_of_cons. tauto.
Qed.

Lemma allInstructions_filter_sublist (P : Function -> Prop)
    `{!forall F, Decision (P F)} (x : Module) :
  allInstructions (filter P x) `sublist_of` allInstructions x.
Proof.
  induction x as [|F x IH]; [done|].
  rewrite filter_cons, allInstructions_cons. case_decide.
  - rewrite allInstructions_cons. by apply sublist_app.
  - by apply sublist_inserts_l.
Qed.

Lemma allInstructions_removeInstructions ids : forall x : Module,
  allInstructions (removeInstructions ids x)
  = filter (fun I => instId I ∉ ids) (allInstructions x).
Proof.
  induction ids as [|id ids IH]; intros x.
  - change (removeInstructions [] x) with x.
    induction (allInstructions x) as [|I l IHl]; [done|].
    rewrite filter_cons_True by apply not_elem_of_nil. by f_equal.
  - cbn [removeInstructions foldl].
    fold (removeInstructions ids (removeInstruction id x)).
    rewrite IH, allInstructions_removeInstruction, list_filter_filter.
    apply list_filter_iff. intros I. rewrite not_elem_of_cons. tauto.
Qed.

Lemma instIds_replaceAll olds (x : Module) :
  instId <$> allInstructions (replaceAll olds x)
  = instId <$> allInstructions x.
Proof.
  rewrite allInstructions_replaceAll, <- list_fmap_compose.
  apply list_fmap_ext. intros _ I _. apply instId_replaceAllInstruction.
Qed.

(** The instructions once the functions are erased are instructions of
    the module passed, patched. *)
Lemma afterErase_instructions keep (x : Module) I2 :
  I2 ∈ allInstructions (afterErase keep x) ->
  exists I, I ∈ allInstructions x
            /\ I2 = replaceAllInstruction (VFunction <$> toRemove keep x) I.
Proof.
  unfold afterErase. rewrite removeFunctions_filter. intros HI.
  eapply elem_of_sublist in HI; [|apply allInstructions_filter_sublist].
  rewrite allInstructions_replaceAll in HI.
  apply list_elem_of_fmap in HI as (I & -> & HI). by exists I.
Qed.

(** An instruction of the module returned is an instruction of the module
    passed, patched. *)
Lemma returned_instruction_patched keep (x : Module) I' :
  I' ∈ allInstructions (afterSweep (afterErase keep x)) ->
  exists I, I ∈ allInstructions x /\ patchedInstruction I I'.
Proof.
  intros HI'. unfold afterSweep in HI'.
  rewrite allInstructions_removeInstructions in HI'.
  apply list_elem_of_filter in HI' as [_ HI'].
  rewrite allInstructions_replaceAll in HI'.
  apply list_elem_of_fmap in HI' as (I2 & -> & HI2).
  apply afterErase_instructions in HI2 as (I & HI & ->).
  exists I. split; [done|].
  by apply patchedInstruction_replaceAll, patchedInstruction_replaceAll,
    patchedInstruction_refl.
Qed.

(** X8. The pass only takes away: the functions of the module returned
    are functions of the module passed, in the same order; its
    instructions are instructions of the module passed, in the same
    order, each one of the same kind with as many operands; an operand
    that was a function or the result of an instruction is as it was or
    undef, and undef stays undef.  No function and no instruction is
    added. *)
Theorem extractChunks_only_removes ChunksToKeep (x x' : Module) :
  extractChunks ChunksToKeep x = Some x' ->
  (shape <$> x') `sublist_of` (shape <$> x)
  /\ (instId <$> allInstructions x') `sublist_of` (instId <$> allInstructions x)
  /\ forall I', I' ∈ allInstructions x' ->
       exists I, I ∈ allInstructions x /\ patchedInstruction I I'.
Proof.
  intros R. rewrite extractChunks_eq in R.
  destruct (keepLoop ChunksToKeep x (∅, 0%nat, 1)) as [st|]; [|done].
  injection R as <-. split; [|split].
  - rewrite shape_afterSweep, shape_afterErase. apply sublist_filter.
  - unfold afterSweep. rewrite allInstructions_removeInstructions.
    etrans; [apply fmap_sublist, sublist_filter|].
    rewrite instIds_replaceAll. unfold afterErase.
    rewrite removeFunctions_filter.
    etrans; [apply fmap_sublist, allInstructions_filter_sublist|].
    by rewrite instIds_replaceAll.
  - apply returned_instruction_patched.
Qed.

Lemma extractChunks_only_removes_witness :
  exists x',
    extractChunks [mkChunk 1 1; mkChunk 3 3] exampleModule = Some x'
    /\ (instId <$> allInstructions x')
         `sublist_of` (instId <$> allInstructions exampleModule).
Proof.
  destruct (extractChunks [mkChunk 1 1; mkChunk 3 3] exampleModule)
    as [x'|] eqn:R; [|vm_compute in R; discriminate R].
  destruct (extractChunks_only_removes [mkChunk 1 1; mkChunk 3 3]
              exampleModule x' R) as (_ & Hids & _).
  by exists x'.
Defined.

(** ** References after the pass *)

Lemma replaceValue_all_function olds : forall v name,
  foldl (fun v old => replaceValue old v) v olds = VFunction name ->
  v = VFunction name.
Proof.
  induction olds as [|old olds IH]; intros v name Hv; [done|].
  cbn [foldl] in Hv. apply IH in Hv. unfold replaceValue in Hv.
  by case_decide.
Qed.

(** Replacing uses by undef brings no function into an instruction. *)
Lemma replaceAllInstruction_function olds I name :
  VFunction name ∈ operands (replaceAllInstruction olds I) ->
  VFunction name ∈ operands I.
Proof.
  rewrite operands_replaceAllInstruction. intros Hin.
  apply list_elem_of_fmap in Hin as (v & Hv & Hin).
  symmetry in Hv. apply replaceValue_all_function in Hv. by subst v.
Qed.

(** An instruction of the module returned, as the two rounds of
    replacements made it. *)
Lemma returned_instruction keep (x : Module) I' :
  I' ∈ allInstructions (afterSweep (afterErase keep x)) ->
  exists I,
    I ∈ allInstructions x
    /\ I' = replaceAllInstruction
              (VInstruction <$> unresolvedCalls (afterErase keep x))
              (replaceAllInstruction (VFunction <$> toRemove keep x) I).
Proof.
  intros HI'. unfold afterSweep in HI'.
  rewrite allInstructions_removeInstructions in HI'.
  apply list_elem_of_filter in HI' as [_ HI'].
  rewrite allInstructions_replaceAll in HI'.
  apply list_elem_of_fmap in HI' as (I2 & -> & HI2).
  apply afterErase_instructions in HI2 as (I & HI & ->).
  by exists I.
Qed.

(** No function that is removed is used in the module returned. *)
Lemma afterSweep_afterErase_no_use keep (x : Module) I' name :
  I' ∈ allInstructions (afterSweep (afterErase keep x)) ->
  name ∈ toRemove keep x -> VFunction name ∉ operands I'.
Proof.
  intros HI' Hname Hin.
  apply returned_instruction in HI' as (I & HI & ->).
  apply replaceAllInstruction_function in Hin.
  rewrite operands_replaceAllInstruction in Hin.
  apply list_elem_of_fmap in Hin as (v & Hv & _).
  symmetry in Hv. revert Hv. apply replaceValue_all_ne; [|done].
  apply list_elem_of_fmap. by exists name.
Qed.

(** X9. When every function used as an operand in the module passed is a
    function of that module, the same holds for the module returned, and
    every call in it calls a function of the module returned: no reference
    to a removed function is left. *)
Theorem extractChunks_wellReferenced ChunksToKeep (x x' : Module) :
  extractChunks ChunksToKeep x = Some x' ->
  wellReferenced x ->
  wellReferenced x'
  /\ forall id callee args,
       CallInst id callee args ∈ allInstructions x' ->
       exists name, callee = VFunction name /\ name ∈ Name <$> x'.
Proof.
  intros R Hwr. pose proof R as R0. rewrite extractChunks_eq in R.
  destruct (keepLoop ChunksToKeep x (∅, 0%nat, 1)) as [st|]; [|done].
  injection R as <-.
  assert (Hwr' : wellReferenced (afterSweep (afterErase st.1.1 x))).
  { intros I' name HI' Hin.
    destruct (returned_instruction st.1.1 x I' HI') as (I & HI & EI).
    assert (name ∈ Name <$> x) as Hx.
    { apply (Hwr I name HI). rewrite EI in Hin.
      by apply replaceAllInstruction_function,
        replaceAllInstruction_function in Hin. }
    assert (name ∉ toRemove st.1.1 x) as Hrem.
    { intros Hrem.
      by eapply afterSweep_afterErase_no_use in Hin. }
    assert (Name <$> afterSweep (afterErase st.1.1 x)
            = fst <$> filter (fun p => p.1 ∉ toRemove st.1.1 x) (shape <$> x))
      as ->.
    { rewrite <- shape_afterErase, <- shape_afterSweep,
        <- list_fmap_compose. done. }
    apply list_elem_of_fmap in Hx as (F & -> & HF).
    apply list_elem_of_fmap. exists (shape F). split; [done|].
    apply list_elem_of_filter. split; [done|].
    by apply list_elem_of_fmap_2. }
  split; [done|].
  intros id callee args HI.
  pose proof (afterSweep_resolved _ _ HI) as Hres. cbn in Hres.
  destruct callee as [name| | |]; try done.
  exists name. split; [done|]. apply (Hwr' _ name HI). by left.
Qed.

Lemma wellReferenced_check (x : Module) :
  forallb (fun I => forallb (isReferenced x) (operands I)) (allInstructions x)
  = true ->
  wellReferenced x.
Proof.
  intros Hall I name HI Hin.
  rewrite forallb_forall in Hall. apply list_elem_of_In, Hall in HI.
  rewrite forallb_forall in HI. apply list_elem_of_In, HI in Hin.
  cbn in Hin. by apply bool_decide_eq_true in Hin.
Qed.

Lemma extractChunks_wellReferenced_witness :
  exists x',
    extractChunks [mkChunk 1 1; mkChunk 3 3] exampleModule = Some x'
    /\ wellReferenced x'.
Proof.
  destruct (extractChunks [mkChunk 1 1; mkChunk 3 3] exampleModule)
    as [x'|] eqn:R; [|vm_compute in R; discriminate R].
  destruct (extractChunks_wellReferenced [mkChunk 1 1; mkChunk 3 3]
              exampleModule x' R) as [Hwr _].
  - apply wellReferenced_check. vm_compute. reflexivity.
  - by exists x'.
Defined.

(** ** The index [getTargetCount] prints and the index of the chunks *)

Lemma indexLines_numbered : forall (x : list Function) n,
  indexLines x n = concat (indexLine <$> numbered x (n + 1)).
Proof.
  induction x as [|F x IH]; intros n; [done|].
  cbn [indexLines numbered]. destruct (isDeclaration F); [apply IH|].
  rewrite fmap_cons. cbn [concat]. by rewrite IH.
Qed.

Lemma numbered_fst : forall (x : list Function) n,
  fst <$> numbered x n = seqZ n (Z.of_nat (numDefined x)).
Proof.
  induction x as [|F x IH]; intros n; [done|].
  cbn [numbered]. rewrite numDefined_cons.
  destruct (isDeclaration F); [apply IH|].
  rewrite fmap_cons, IH, (seqZ_cons n) by lia. cbn [fst].
  do 2 f_equal. lia.
Qed.

Lemma numbered_snd : forall (x : list Function) n,
  snd <$> numbered x n = definedNames x.
Proof.
  unfold definedNames.
  induction x as [|F x IH]; intros n; [done|].
  cbn [numbered]. rewrite filter_cons. destruct (isDeclaration F) eqn:ED.
  - rewrite decide_False by done. apply IH.
  - rewrite decide_True by done. rewrite !fmap_cons. cbn [snd].
    by rewrite IH.
Qed.

(** X10. [getTargetCount] prints, between its two header lines and its
    closing line, one index line per defined function, in module order;
    the indices printed are 1, 2, ... up to the number returned.  They
    are the indices [extractChunksFromModule] compares with the chunks. *)
Theorem getTargetCount_prints_indices Program s (x : Module) :
  Heap s !! Program = Some x ->
  Trace (getTargetCount Program s).2
  = Trace s
      ++ [EvOuts (OutStr ("----------------------------" +:+ newline));
          EvOuts (OutStr ("Chunk Index Reference:" +:+ newline))]
      ++ concat (indexLine <$> numbered x 1)
      ++ [EvOuts (OutStr ("----------------------------" +:+ newline))]
  /\ fst <$> numbered x 1 = seqZ 1 (Z.of_nat (numDefined x))
  /\ snd <$> numbered x 1 = definedNames x
  /\ (getTargetCount Program s).1 = Some (Z.of_nat (length (numbered x 1))).
Proof.
  intros E. destruct s as [H T]. cbn [Heap] in E.
  rewrite (getTargetCount_run Program H T x E). cbn [fst snd Trace].
  split; [by rewrite indexLines_numbered|].
  split; [apply numbered_fst|]. split; [apply numbered_snd|].
  by rewrite <- (length_fmap fst), numbered_fst, length_seqZ, Nat2Z.id.
Qed.

Lemma getTargetCount_prints_indices_witness :
  numbered exampleModule 1 = [(1, "f"); (2, "g"); (3, "h")]%string
  /\ (getTargetCount 0%nat (initial exampleModule)).1 = Some 3.
Proof.
  destruct (getTargetCount_prints_indices 0%nat (initial exampleModule)
              exampleModule eq_refl) as (_ & _ & _ & Hn).
  split; [reflexivity|]. rewrite Hn. reflexivity.
Defined.

(** ** The number of target units of the module returned *)

Lemma filter_ext_elem {A} (P Q : A -> Prop) `{!forall a, Decision (P a)}
    `{!forall a, Decision (Q a)} (l : list A) :
  (forall a, a ∈ l -> P a <-> Q a) -> filter P l = filter Q l.
Proof.
  induction l as [|a l IH]; intros Hl; [done|].
  rewrite !filter_cons.
  rewrite IH by (intros b Hb; apply Hl; by right).
  apply decide_ext, Hl. by left.
Qed.

Lemma filter_none {A} (P : A -> Prop) `{!forall a, Decision (P a)}
    (l : list A) :
  (forall a, a ∈ l -> ~ P a) -> filter P l = [].
Proof.
  induction l as [|a l IH]; intros Hl; [done|].
  rewrite filter_cons_False by (apply Hl; by left).
  apply IH. intros b Hb. apply Hl. by right.
Qed.

Lemma filter_all {A} (P : A -> Prop) `{!forall a, Decision (P a)}
    (l : list A) :
  (forall a, a ∈ l -> P a) -> filter P l = l.
Proof.
  induction l as [|a l IH]; intros Hl; [done|].
  rewrite filter_cons_True by (apply Hl; by left).
  f_equal. apply IH. intros b Hb. apply Hl. by right.
Qed.

Lemma length_filter_fmap {A B} (f : A -> B) (P : B -> Prop) (Q : A -> Prop)
    `{!forall b, Decision (P b)} `{!forall a, Decision (Q a)} (l : list A) :
  (forall a, Q a <-> P (f a)) ->
  length (filter Q l) = length (filter P (f <$> l)).
Proof.
  intros HPQ. induction l as [|a l IH]; [done|].
  rewrite fmap_cons, !filter_cons.
  destruct (decide (Q a)) as [HQ|HQ], (decide (P (f a))) as [HP|HP];
    cbn [length]; rewrite ?IH; try done; by apply HPQ in HQ || apply HPQ in HP.
Qed.

(** The indices above [lo] and up to [hi] that lie inside ascending
    chunks ending at or before [hi]: as many as the chunks hold. *)
Lemma count_covered cs : forall lo hi,
  ascendingFrom lo cs = true ->
  (forall c, c ∈ cs -> end_ c <= hi) ->
  lo <= hi ->
  Z.of_nat (length (filter (fun k => covered cs k = true)
                      (seqZ (lo + 1) (hi - lo))))
  = chunkSizes cs.
Proof.
  induction cs as [|c cs IH]; intros lo hi Ha Hhi Hlo.
  - rewrite filter_none; [done|]. intros k _. by cbn.
  - cbn [ascendingFrom] in Ha. apply andb_prop in Ha as [Ha Ha3].
    apply andb_prop in Ha as [Ha1 Ha2].
    apply Z.ltb_lt in Ha1. apply Z.leb_le in Ha2.
    assert (end_ c <= hi) as He by (apply Hhi; by left).
    replace (hi - lo)
      with ((begin c - 1 - lo) + ((end_ c - begin c + 1) + (hi - end_ c)))
      by lia.
    rewrite seqZ_app by lia. rewrite seqZ_app by lia.
    rewrite !filter_app, !length_app.
    rewrite (filter_none _ (seqZ (lo + 1) _)); cycle 1.
    { intros k Hk. apply elem_of_seqZ in Hk.
      rewrite covered_cons, (covered_below cs (end_ c) k Ha3) by lia.
      unfold inChunk. rewrite orb_false_r.
      apply not_true_iff_false, andb_false_iff. left. apply Z.leb_gt. lia. }
    rewrite (filter_all _ (seqZ (lo + 1 + (begin c - 1 - lo)) _)); cycle 1.
    { intros k Hk. apply elem_of_seqZ in Hk.
      rewrite covered_cons. apply orb_true_iff. left.
      unfold inChunk. apply andb_true_iff. split; apply Z.leb_le; lia. }
    rewrite (filter_ext_elem _ (fun k => covered cs k = true)); cycle 1.
    { intros k Hk. apply elem_of_seqZ in Hk.
      rewrite covered_cons. unfold inChunk.
      replace (k <=? end_ c) with false by (symmetry; apply Z.leb_gt; lia).
      by rewrite andb_false_r. }
    replace (lo + 1 + (begin c - 1 - lo) + (end_ c - begin c + 1))
      with (end_ c + 1) by lia.
    rewrite length_seqZ. cbn [length chunkSizes foldr].
    fold (chunkSizes cs).
    rewrite <- (IH (end_ c) hi Ha3) by (first [lia | intros c' Hc'; apply Hhi; by right]).
    lia.
Qed.

(** X11. On ascending chunks inside 1..N that reach N, the number N of
    defined functions of a module with unique function names,
    [getTargetCount] on the module returned gives the number of indices
    the chunks hold. *)
Theorem extractChunks_counts_chunks ChunksToKeep (x : Module) :
  ascendingFrom 0 ChunksToKeep = true ->
  (forall c, c ∈ ChunksToKeep -> end_ c <= Z.of_nat (numDefined x)) ->
  reachesEnd ChunksToKeep x ->
  NoDup (Name <$> x) ->
  exists x',
    extractChunks ChunksToKeep x = Some x'
    /\ targetCount x' = Some (chunkSizes ChunksToKeep).
Proof.
  intros Hasc Hin Hend Hnd.
  destruct (extractChunks_ascending ChunksToKeep x Hasc Hend Hnd)
    as (x' & R & Hshape).
  exists x'. split; [done|]. rewrite targetCount_eq. f_equal.
  rewrite <- (count_covered ChunksToKeep 0 (Z.of_nat (numDefined x)))
    by (done || lia).
  f_equal.
  assert (numDefined x' = length (definedNames x')) as ->.
  { unfold definedNames, numDefined. by rewrite length_fmap. }
  rewrite definedNames_shape, Hshape, expected_defined, length_fmap.
  rewrite Z.sub_0_r. change (0 + 1) with 1. rewrite <- numbered_fst.
  by apply (length_filter_fmap fst (fun k => covered ChunksToKeep k = true)).
Qed.

Lemma extractChunks_counts_chunks_witness :
  exists x',
    extractChunks [mkChunk 1 1; mkChunk 3 3] exampleModule = Some x'
    /\ targetCount x' = Some 2.
Proof.
  apply (extractChunks_counts_chunks [mkChunk 1 1; mkChunk 3 3]
           exampleModule).
  - reflexivity.
  - intros c Hc. apply elem_of_cons in Hc as [->|Hc]; [vm_compute; discriminate|].
    apply elem_of_cons in Hc as [->|Hc]; [vm_compute; discriminate|].
    by apply elem_of_nil in Hc.
  - intros _. exists (mkChunk 3 3). split; [reflexivity|]. vm_compute.
    discriminate.
  - exact exampleModule_NoDup.
Defined.

(** ** The clone in the store *)

(** X12. A call of [extractChunksFromModule] that returns adds exactly one
    module to the store, at an address that held nothing before and that
    is not [Program]; that module depends on the chunks and on the module
    [Program] alone.  A second call with the same arguments returns
    another address holding an equal module. *)
Theorem extractChunksFromModule_fresh_clone ChunksToKeep Program s Clone s' :
  extractChunksFromModule ChunksToKeep Program s = (Some Clone, s') ->
  exists x x',
    Heap s !! Program = Some x
    /\ extractChunks ChunksToKeep x = Some x'
    /\ Heap s !! Clone = None
    /\ Clone ≠ Program
    /\ Heap s' = Heap s ++ [x']
    /\ Heap s' !! Clone = Some x'
    /\ exists Clone2 s2,
         extractChunksFromModule ChunksToKeep Program s' = (Some Clone2, s2)
         /\ Clone2 ≠ Clone
         /\ Heap s2 !! Clone2 = Some x'.
Proof.
  intros R.
  destruct (extractChunksFromModule_cases ChunksToKeep Program s)
    as [[_ R']|[(x & _ & _ & R')|(x & st & E & K & R')]];
    cbv zeta in R'; rewrite R in R'; try done.
  injection R' as -> ->. exists x, (afterSweep (afterErase st.1.1 x)).
  split; [done|]. split; [by rewrite extractChunks_eq, K|].
  split; [apply lookup_ge_None_2; lia|].
  split; [apply lookup_lt_Some in E; lia|].
  split; [done|]. cbn [Heap].
  split; [by apply list_lookup_middle|].
  eexists _, _. split.
  - apply (extractChunksFromModule_run ChunksToKeep Program _ _ x st); [|done].
    by apply lookup_app_l_Some.
  - split; [cbn [Heap]; rewrite length_app; cbn; lia|].
    apply list_lookup_middle. by rewrite length_app.
Qed.

Lemma extractChunksFromModule_fresh_clone_witness :
  exists x',
    extractChunks [mkChunk 1 1; mkChunk 3 3] exampleModule = Some x'
    /\ Heap (extractChunksFromModule [mkChunk 1 1; mkChunk 3 3] 0%nat
               (initial exampleModule)).2
       = [exampleModule; x'].
Proof.
  destruct (extractChunksFromModule [mkChunk 1 1; mkChunk 3 3] 0%nat
              (initial exampleModule)) as [[Clone|] s'] eqn:R;
    [|vm_compute in R; discriminate R].
  destruct (extractChunksFromModule_fresh_clone _ _ _ _ _ R)
    as (x & x' & E & Rx & _ & _ & HH & _).
  injection E as <-. exists x'. split; [exact Rx|]. exact HH.
Defined.

(** ** The driver *)

Lemma forallb_weaken {A} (p q : A -> bool) (l : list A) :
  (forall a, p a = true -> q a = true) ->
  forallb p l = true -> forallb q l = true.
Proof.
  intros Hpq. induction l as [|a l IH]; [done|]. cbn [forallb].
  intros [Ha Hl]%andb_prop. by rewrite (Hpq a Ha), IH.
Qed.

Lemma filter_none_of {A} (p q : A -> bool) (l : list A) :
  (forall a, p a = true -> q a = false) ->
  forallb p l = true -> List.filter q l = [].
Proof.
  intros Hpq. induction l as [|a l IH]; [done|]. cbn [forallb List.filter].
  intros [Ha Hl]%andb_prop. by rewrite (Hpq a Ha), IH.
Qed.

(** Whatever [parseInputFile] prints goes to the standard error. *)
Lemma parseInputFile_only_errs (E : Collaborators) Filename :
  forallb isErrs (parseInputFile E Filename).1 = true.
Proof.
  unfold parseInputFile. destruct (parseIRFile E Filename) as [R|]; [|done].
  cbv zeta. destruct (verifyModule E R).2; cbn [fst].
  - rewrite forallb_app, forallb_fmap_Errs; done.
  - by apply forallb_fmap_Errs.
Qed.

(** X13. When the current directory cannot be read, [main] ends with exit
    code 1 after the message of [initializeTmpDirectory]: no directory is
    created, the delta passes are not started, nothing is copied and
    nothing is printed on the standard output. *)
Theorem main_exits_without_current_directory (E : Collaborators)
    (o : Options) EC :
  current_path E = inl EC ->
  (main E o).2 = 1
  /\ last (main E o).1
     = Some (Errs ("Error getting current directory: " +:+ EC +:+ "!"
                   +:+ newline))
  /\ forallb (fun a => negb (isCreate a) && negb (isRun a)
                       && negb (isCopy a) && negb (isOuts a))
       (main E o).1 = true.
Proof.
  intros Ecwd. unfold main, initializeTmpDirectory. rewrite Ecwd.
  pose proof (parseInputFile_only_errs E (InputFilename o)) as Hp.
  destruct (parseInputFile E (InputFilename o)) as [parsing prog].
  cbn [fst snd] in *. split; [done|]. split; [by rewrite last_snoc|].
  rewrite forallb_app. apply andb_true_iff. split; [|done].
  revert Hp. apply forallb_weaken. by intros [].
Qed.

Lemma main_exits_without_current_directory_witness :
  (main (collaboratorsWith (inl "Permission denied"%string)
           (fun _ => None) (fun _ => None)) exampleOptions).2 = 1.
Proof.
  apply (main_exits_without_current_directory
           (collaboratorsWith (inl "Permission denied"%string)
              (fun _ => None) (fun _ => None))
           exampleOptions "Permission denied"%string).
  reflexivity.
Defined.

(** X14. When the tmp directory cannot be created, [main] only reports
    it: the delta passes are started right after the message, on a runner
    given the path of that directory, and the exit code is 0. *)
Theorem main_continues_without_tmp_directory (E : Collaborators)
    (o : Options) CWD EC :
  current_path E = inr CWD ->
  create_directory E (path_append E CWD "tmp") = Some EC ->
  exists before after,
    (main E o).1
    = before
        ++ [CreateDirectory (path_append E CWD "tmp");
            Errs ("Error creating tmp directory: " +:+ EC +:+ "!"
                  +:+ newline);
            RunDeltaPasses (testerOf E o (path_append E CWD "tmp"))]
        ++ after
    /\ (main E o).2 = 0.
Proof.
  intros Ecwd Etmp. unfold main, initializeTmpDirectory, testerOf.
  rewrite Ecwd. cbv zeta. rewrite Etmp.
  destruct (parseInputFile E (InputFilename o)) as [parsing prog].
  cbn [fst snd]. exists parsing.
  destruct (String.eqb _ _); eexists; (split; [|done]); cbn [fst];
    reflexivity.
Qed.

Lemma main_continues_without_tmp_directory_witness :
  (main (collaboratorsWith (inr "/work"%string)
           (fun _ => Some "Read-only file system"%string) (fun _ => None))
     exampleOptions).2 = 0.
Proof.
  destruct (main_continues_without_tmp_directory
              (collaboratorsWith (inr "/work"%string)
                 (fun _ => Some "Read-only file system"%string)
                 (fun _ => None))
              exampleOptions "/work"%string "Read-only file system"%string
              eq_refl eq_refl) as (before & after & _ & Hcode).
  exact Hcode.
Defined.

(** X15. When the current directory can be read, [main] starts the delta
    passes exactly once, prints exactly one report on the standard
    output and ends with exit code 0; it copies at most one file: none
    when the file name of the reduced path is the input file name as
    given, else the reduced file to the output path. *)
Theorem main_one_run_one_report (E : Collaborators) (o : Options) CWD :
  current_path E = inr CWD ->
  let Tester := testerOf E o (path_append E CWD "tmp") in
  let Reduced := getReducedFilepath E (runDeltaPasses E Tester) in
  List.filter isRun (main E o).1 = [RunDeltaPasses Tester]
  /\ length (List.filter isOuts (main E o).1) = 1%nat
  /\ List.filter isCopy (main E o).1
     = (if String.eqb (path_filename E Reduced) (InputFilename o) then []
        else [CopyFile Reduced (outputOf o)])
  /\ (main E o).2 = 0.
Proof.
  intros Ecwd. cbv zeta.
  pose proof (parseInputFile_only_errs E (InputFilename o)) as Hp.
  unfold main, initializeTmpDirectory, testerOf, outputOf.
  rewrite Ecwd. cbv zeta.
  destruct (parseInputFile E (InputFilename o)) as [parsing prog].
  cbn [fst snd] in *.
  assert (List.filter isRun parsing = []) as Hrun
    by (revert Hp; apply filter_none_of; by intros []).
  assert (List.filter isOuts parsing = []) as Houts
    by (revert Hp; apply filter_none_of; by intros []).
  assert (List.filter isCopy parsing = []) as Hcopy
    by (revert Hp; apply filter_none_of; by intros []).
  destruct (create_directory E _); destruct (String.eqb _ _);
    cbn [fst snd]; rewrite !List.filter_app, Hrun, Houts, Hcopy; done.
Qed.

Lemma main_one_run_one_report_witness :
  List.filter isCopy (main exampleCollaborators exampleOptions).1
  = [CopyFile "dir/a.ll" "reduced.ll"].
Proof.
  destruct (main_one_run_one_report exampleCollaborators exampleOptions
              "/work"%string eq_refl) as (_ & _ & Hcopy & _).
  exact Hcopy.
Defined.

(** X16. [parseInputFile] returns a module exactly when [parseIRFile]
    gave that module and the verifier did not find it broken; it then
    prints what the verifier wrote and nothing else.  When it returns
    null, the last thing printed is the diagnostic of the parser or the
    line that names the broken input: null is never returned silently.
    Everything it prints goes to the standard error. *)
Theorem parseInputFile_reports_failure (E : Collaborators) Filename :
  (forall M, (parseInputFile E Filename).2 = Some M <->
     parseIRFile E Filename = Some M /\ (verifyModule E M).2 = false)
  /\ (forall M, (parseInputFile E Filename).2 = Some M ->
        (parseInputFile E Filename).1 = Errs <$> (verifyModule E M).1)
  /\ ((parseInputFile E Filename).2 = None ->
        last (parseInputFile E Filename).1
        = Some (ErrsDiagnostic "llvm-reduce")
        \/ last (parseInputFile E Filename).1
           = Some (Errs ("Error: " +:+ Filename
                         +:+ " - input module is broken!" +:+ newline)))
  /\ forallb isErrs (parseInputFile E Filename).1 = true.
Proof.
  split; [|split; [|split; [|apply parseInputFile_only_errs]]];
    unfold parseInputFile;
    (destruct (parseIRFile E Filename) as [R|] eqn:EP;
     [cbv zeta; destruct (verifyModule E R).2 eqn:EV|]); cbn [fst snd].
  - intros M. split; [done|]. intros [HM HV]. injection HM as <-. congruence.
  - intros M. split.
    + intros HM. by injection HM as <-.
    + by intros [HM _].
  - intros M. split; [done|]. by intros [HM _].
  - done.
  - intros M HM. by injection HM as <-.
  - done.
  - intros _. right. by rewrite last_snoc.
  - done.
  - intros _. by left.
Qed.

(** ** Chunk vectors in any order *)

Lemma inChunks_numbered kept : forall Fs fc,
  inChunks kept Fs fc
  = snd <$> filter (fun p => covered kept p.1 = true) (numbered Fs fc).
Proof.
  induction Fs as [|F Fs IH]; intros fc; [done|].
  cbn [inChunks numbered]. destruct (isDeclaration F); [apply IH|].
  rewrite filter_cons. cbn [fst]. destruct (covered kept fc) eqn:EC.
  - rewrite decide_True by done. rewrite fmap_cons. cbn [snd]. by rewrite IH.
  - rewrite decide_False by done. apply IH.
Qed.

(** A defined function of the module returned has, in the module
    passed, a name whose index lies inside a chunk. *)
Lemma returned_defined_covered ChunksToKeep (x x' : Module) n :
  extractChunks ChunksToKeep x = Some x' ->
  n ∈ definedNames x' ->
  exists k, (k, n) ∈ numbered x 1 /\ covered ChunksToKeep k = true.
Proof.
  intros R Hn. rewrite extractChunks_eq in R.
  destruct (keepLoop ChunksToKeep x (∅, 0%nat, 1)) as [st|] eqn:K; [|done].
  injection R as <-.
  rewrite definedNames_shape, shape_afterSweep, shape_afterErase in Hn.
  apply list_elem_of_fmap in Hn as ([n' d] & -> & Hp).
  apply list_elem_of_filter in Hp as [Hd Hp]. cbn in Hd. subst d.
  apply list_elem_of_filter in Hp as [Hrem Hp]. cbn [fst] in *.
  apply list_elem_of_fmap in Hp as (F & HF & HFx).
  injection HF as -> HD.
  assert (Name F ∈ st.1.1) as Hkeep.
  { destruct (decide (Name F ∈ st.1.1)) as [|Hnot]; [done|].
    exfalso. apply Hrem, elem_of_toRemove. exists F.
    split; [done|]. split; [done|]. unfold outOfChunk.
    rewrite <- HD. by rewrite bool_decide_eq_false_2. }
  destruct st as [[keep Ix] fc].
  pose proof (keepLoop_marks_covered _ _ _ _ _ _ K) as Hsub.
  cbn [fst] in *.
  assert (Name F ∈ inChunks ChunksToKeep x 1) as Hin by set_solver.
  rewrite inChunks_numbered in Hin.
  apply list_elem_of_fmap in Hin as ([k m] & Hm & Hin). cbn in Hm. subst m.
  apply list_elem_of_filter in Hin as [Hc Hin]. by exists k.
Qed.

(** With distinct names a name has one index. *)
Lemma numbered_index_unique (x : Module) a k k' n :
  NoDup (Name <$> x) ->
  (k, n) ∈ numbered x a -> (k', n) ∈ numbered x a -> k = k'.
Proof.
  intros Hnd.
  assert (NoDup (snd <$> numbered x a)) as Hs.
  { rewrite numbered_snd. unfold definedNames.
    eapply sublist_NoDup; [exact Hnd|]. apply fmap_sublist, sublist_filter. }
  revert Hs. generalize (numbered x a). intros l.
  induction l as [|[j m] l IH]; intros Hs Hk Hk'.
  - by apply elem_of_nil in Hk.
  - rewrite fmap_cons in Hs. apply NoDup_cons in Hs as [Hnot Hs].
    cbn [snd] in Hnot.
    apply elem_of_cons in Hk as [Hk|Hk], Hk' as [Hk'|Hk'].
    + congruence.
    + injection Hk as <- <-. exfalso. apply Hnot.
      apply list_elem_of_fmap. by exists (k', n).
    + injection Hk' as <- <-. exfalso. apply Hnot.
      apply list_elem_of_fmap. by exists (k, n).
    + by apply IH.
Qed.

Lemma returned_shape_sublist ChunksToKeep (x x' : Module) :
  extractChunks ChunksToKeep x = Some x' ->
  (shape <$> x') `sublist_of` (shape <$> x).
Proof.
  intros R. rewrite extractChunks_eq in R.
  destruct (keepLoop ChunksToKeep x (∅, 0%nat, 1)) as [st|]; [|done].
  injection R as <-. rewrite shape_afterSweep, shape_afterErase.
  apply sublist_filter.
Qed.

(** X17. On a module with distinct function names, whatever the chunks
    are (ascending or not), the module returned holds no function with
    the name of a defined function whose index lies outside every chunk:
    a function outside every chunk is never kept. *)
Theorem extractChunks_keeps_only_covered ChunksToKeep (x x' : Module) k n :
  extractChunks ChunksToKeep x = Some x' ->
  NoDup (Name <$> x) ->
  (k, n) ∈ numbered x 1 ->
  covered ChunksToKeep k = false ->
  n ∉ Name <$> x'.
Proof.
  intros R Hnd Hk Hc Hn.
  assert (exists F, F ∈ x /\ Name F = n /\ isDeclaration F = false)
    as (F & HF & HFn & HFd).
  { assert (n ∈ snd <$> numbered x 1) as Hs
      by (apply list_elem_of_fmap; by exists (k, n)).
    rewrite numbered_snd in Hs. unfold definedNames in Hs.
    apply list_elem_of_fmap in Hs as (F & -> & HF).
    apply list_elem_of_filter in HF as [HFd HF]. by exists F. }
  apply list_elem_of_fmap in Hn as (F' & HF'n & HF').
  assert (shape F' ∈ shape <$> x) as Hsh.
  { eapply elem_of_sublist; [|by apply (returned_shape_sublist ChunksToKeep)].
    by apply list_elem_of_fmap_2. }
  apply list_elem_of_fmap in Hsh as (F0 & Hsh & HF0).
  injection Hsh as HN HD.
  assert (F0 = F) as ->
    by (apply (NoDup_Name_inj x); [done..|congruence]).
  assert (n ∈ definedNames x') as Hdef.
  { unfold definedNames. apply list_elem_of_fmap. exists F'.
    split; [done|]. apply list_elem_of_filter. split; [congruence|done]. }
  destruct (returned_defined_covered ChunksToKeep x x' n R Hdef)
    as (k' & Hk' & Hc').
  rewrite (numbered_index_unique x 1 k k' n Hnd Hk Hk') in Hc. congruence.
Qed.

Lemma extractChunks_keeps_only_covered_witness :
  exists x',
    extractChunks [mkChunk 3 3; mkChunk 1 1] exampleModule = Some x'
    /\ "g"%string ∉ Name <$> x'.
Proof.
  destruct (extractChunks [mkChunk 3 3; mkChunk 1 1] exampleModule)
    as [x'|] eqn:R; [|vm_compute in R; discriminate R].
  exists x'. split; [reflexivity|].
  apply (extractChunks_keeps_only_covered [mkChunk 3 3; mkChunk 1 1]
           exampleModule x' 2 "g"%string R exampleModule_NoDup).
  - vm_compute. apply list_elem_of_In. right. left. reflexivity.
  - reflexivity.
Defined.
